(** * YOLOv11-Hailo-Tracker: detection post-processing

    A shallow embedding of [src/object_detection_post_process.py]:
    the loitering manager, the IoU geometry, the track matcher, the
    detection selector and the per-frame orchestrator, followed by the
    properties proved about them.

    Conventions.
    - Python [int] is [Z]; a Python [float] is the rational it denotes, in
      [Q]: comparisons of floats, and of an int with a float, are exact.
      The float products whose rounding decides an answer (the frame
      threshold, the denormalized coordinate, the displayed score) are
      rounded to binary64, to nearest with ties to even, by
      [Binary64.round64]; infinities and not-a-number have no value in
      [Q], so magnitudes of [2^1024] and above are outside the model.
      [compute_iou] is in exact arithmetic, as its statements say.
    - [dict] / [defaultdict] keyed by track id is a [gmap Z Z]; a Python
      [set] of track ids is a [gset Z].
    - A raised exception ([KeyError], [IndexError]) is [None]. *)

From Stdlib Require Import ZArith QArith Qround Qreduction Qpower Lia Lqa List Sorted.
From stdpp Require Import base option list gmap strings.
From Corelib Require PrimFloat SpecFloat FloatOps.

Local Open Scope Z_scope.

(** ** Rational helpers *)

(** Python's [a > b] on numbers, as [b < a]. *)
Definition Qltb (x y : Q) : bool := negb (Qle_bool y x).

(** ** Binary64 rounding *)

Module Binary64.

(** The integer nearest to [q], a tie going to the even one. *)
Definition round_half_even (q : Q) : Z :=
  let n := Qfloor q in
  match Qcompare (q - inject_Z n) (1 # 2) with
  | Lt => n
  | Gt => n + 1
  | Eq => if Z.even n then n else n + 1
  end.

(** For [q > 0], the exponent [e] with [2^e <= q < 2^(e+1)]. *)
Definition binade (q : Q) : Z :=
  let e0 := Z.log2 (Qnum q) - Z.log2 (Zpos (Qden q)) in
  if Qle_bool (2 ^ e0) q then e0 else e0 - 1.

(** The multiple of [2^e] nearest to [q], ties to even. *)
Definition on_grid (e : Z) (q : Q) : Q :=
  (inject_Z (round_half_even (q * 2 ^ (- e))) * 2 ^ e)%Q.

(** The spacing of the binary64 numbers around [q >= 0]: 53 significant
    bits, and the spacing [2^-1074] of the subnormal numbers below
    [2^-1022]. *)
Definition grid_exponent (q : Q) : Z := Z.max (binade q) (-1022) - 52.

Definition round_nonneg (q : Q) : Q := Qred (on_grid (grid_exponent q) q).

(** The binary64 number nearest to [q]. *)
Definition round64 (q : Q) : Q :=
  if Qle_bool 0 q then round_nonneg q else (- round_nonneg (- q))%Q.

(** [x * y] on two floats. *)
Definition float_mul (x y : Q) : Q := round64 (x * y).

(** [float(n)], the conversion applied to an int operand of a float
    product. *)
Definition float_of_int (n : Z) : Q := round64 (inject_Z n).

(** The float a decimal literal such as [3.3] denotes. *)
Definition float_lit (q : Q) : Q := round64 q.

(** The value of a machine float, read off its sign, mantissa and
    exponent; [None] for an infinity or not-a-number.  It is used only to
    compare [round64] with the machine's own binary64 arithmetic. *)
Definition float_value (f : PrimFloat.float) : option Q :=
  match FloatOps.Prim2SF f with
  | SpecFloat.S754_zero _ => Some 0%Q
  | SpecFloat.S754_finite s m e =>
      let v := (inject_Z (Zpos m) * 2 ^ e)%Q in
      Some (Qred (if s then (- v)%Q else v))
  | _ => None
  end.

End Binary64.

(** ** The loitering manager (class [LoiteringDetectionManager]) *)

Module Loitering.

(** [collections.defaultdict(int)]: membership does not insert, reading a
    missing key inserts the default [0], [del] of a missing key raises. *)
Definition defaultdict_contains (k : Z) (d : gmap Z Z) : bool :=
  bool_decide (is_Some (d !! k)).

Definition defaultdict_getitem (k : Z) (d : gmap Z Z) : Z * gmap Z Z :=
  match d !! k with
  | Some v => (v, d)
  | None => (0, <[k := 0]> d)
  end.

Definition defaultdict_setitem (k v : Z) (d : gmap Z Z) : gmap Z Z :=
  <[k := v]> d.

Definition defaultdict_delitem (d : gmap Z Z) (k : Z) : option (gmap Z Z) :=
  if defaultdict_contains k d then Some (delete k d) else None.

(** Iterating a dict yields its keys. *)
Definition defaultdict_keys (d : gmap Z Z) : list Z := (map_to_list d).*1.

Record LoiteringDetectionManager : Type := Manager {
  loitering_threshold : Q;
  frame_threshold : Q;
  track_start_frames : gmap Z Z;
  current_frame : Z
}.

Definition with_track_start_frames (d : gmap Z Z)
    (self : LoiteringDetectionManager) : LoiteringDetectionManager :=
  {| loitering_threshold := loitering_threshold self;
     frame_threshold := frame_threshold self;
     track_start_frames := d;
     current_frame := current_frame self |}.

(** [__init__(self, loitering_threshold=10.0, fps=30.0)] *)
Definition init (loitering_threshold fps : Q) : LoiteringDetectionManager :=
  {| loitering_threshold := loitering_threshold;
     frame_threshold := Binary64.float_mul loitering_threshold fps;
     track_start_frames := ∅;
     current_frame := 0 |}.

Definition init_default : LoiteringDetectionManager := init 10 30.

Definition update_frame_count (self : LoiteringDetectionManager)
    : LoiteringDetectionManager :=
  {| loitering_threshold := loitering_threshold self;
     frame_threshold := frame_threshold self;
     track_start_frames := track_start_frames self;
     current_frame := current_frame self + 1 |}.

Definition update_track (self : LoiteringDetectionManager) (track_id : Z)
    : LoiteringDetectionManager :=
  if negb (defaultdict_contains track_id (track_start_frames self)) then
    with_track_start_frames
      (defaultdict_setitem track_id (current_frame self) (track_start_frames self))
      self
  else self.

(** [is_loitering] returns its answer together with the manager after the
    call, since reading a [defaultdict] can insert. *)
Definition is_loitering (self : LoiteringDetectionManager) (track_id : Z)
    : bool * LoiteringDetectionManager :=
  if negb (defaultdict_contains track_id (track_start_frames self)) then
    (false, self)
  else
    let '(start, d) := defaultdict_getitem track_id (track_start_frames self) in
    let frames_present := current_frame self - start in
    (Qltb (frame_threshold self) (inject_Z frames_present),
     with_track_start_frames d self).

(** The second loop of [cleanup_missing_tracks]: [del] each collected id. *)
Fixpoint delete_ids (ids_to_remove : list Z) (d : gmap Z Z)
    : option (gmap Z Z) :=
  match ids_to_remove with
  | [] => Some d
  | track_id :: rest =>
      match defaultdict_delitem d track_id with
      | Some d' => delete_ids rest d'
      | None => None
      end
  end.

Definition cleanup_missing_tracks (self : LoiteringDetectionManager)
    (current_track_ids : gset Z) : option LoiteringDetectionManager :=
  let ids_to_remove :=
    List.filter (fun track_id => negb (bool_decide (track_id ∈ current_track_ids)))
                (defaultdict_keys (track_start_frames self)) in
  match delete_ids ids_to_remove (track_start_frames self) with
  | Some d => Some (with_track_start_frames d self)
  | None => None
  end.

(** Method calls made on a manager, and a run of such calls. *)
Inductive Call : Type :=
  | CallUpdateFrameCount
  | CallUpdateTrack (track_id : Z)
  | CallIsLoitering (track_id : Z)
  | CallCleanup (current_track_ids : gset Z).

Definition call (self : LoiteringDetectionManager) (c : Call)
    : option LoiteringDetectionManager :=
  match c with
  | CallUpdateFrameCount => Some (update_frame_count self)
  | CallUpdateTrack track_id => Some (update_track self track_id)
  | CallIsLoitering track_id => Some (snd (is_loitering self track_id))
  | CallCleanup ids => cleanup_missing_tracks self ids
  end.

Fixpoint run (cs : list Call) (self : LoiteringDetectionManager)
    : option LoiteringDetectionManager :=
  match cs with
  | [] => Some self
  | c :: rest =>
      match call self c with
      | Some self' => run rest self'
      | None => None
      end
  end.

(** A call that does not drop [track_id]: every active set passed to
    [cleanup_missing_tracks] contains it. *)
Definition keeps (track_id : Z) (c : Call) : Prop :=
  match c with
  | CallCleanup ids => track_id ∈ ids
  | _ => True
  end.

(** The number of [update_frame_count] calls among [cs]. *)
Fixpoint frames_advanced (cs : list Call) : Z :=
  match cs with
  | [] => 0
  | CallUpdateFrameCount :: rest => 1 + frames_advanced rest
  | _ :: rest => frames_advanced rest
  end.

End Loitering.

(** ** Geometry ([compute_iou]) and the track matcher *)

Module Geometry.

(** A box is a sequence of four numbers, read as [box[0]] .. [box[3]]. *)
Record Box : Type := mkBox { c0 : Q; c1 : Q; c2 : Q; c3 : Q }.

(** Python's two-argument [max] and [min]: the first argument is kept
    unless the second is strictly larger (smaller). *)
Definition pymax (a b : Q) : Q := if Qltb a b then b else a.
Definition pymin (a b : Q) : Q := if Qltb b a then b else a.

(** The literal [1e-5]. *)
Definition eps : Q := 1 # 100000.

Definition intersection (boxA boxB : Box) : Q :=
  let xA := pymax (c0 boxA) (c0 boxB) in
  let yA := pymax (c1 boxA) (c1 boxB) in
  let xB := pymin (c2 boxA) (c2 boxB) in
  let yB := pymin (c3 boxA) (c3 boxB) in
  (pymax 0 (xB - xA) * pymax 0 (yB - yA))%Q.

(** The product of the two side lengths, before the floor is applied. *)
Definition raw_area (box : Box) : Q :=
  ((c2 box - c0 box) * (c3 box - c1 box))%Q.

Definition floored_area (box : Box) : Q := pymax eps (raw_area box).

Definition denominator (boxA boxB : Box) : Q :=
  (floored_area boxA + floored_area boxB - intersection boxA boxB + eps)%Q.

Definition compute_iou (boxA boxB : Box) : Q :=
  (intersection boxA boxB / denominator boxA boxB)%Q.

(** The loop of [find_best_matching_detection_index], started at index [i]
    with the running [best_iou] and [best_idx]. *)
Fixpoint best_match_loop (track_box : Box) (detection_boxes : list Box)
    (i : Z) (best_iou : Q) (best_idx : Z) : Q * Z :=
  match detection_boxes with
  | [] => (best_iou, best_idx)
  | det_box :: rest =>
      let iou := compute_iou track_box det_box in
      if Qltb best_iou iou
      then best_match_loop track_box rest (i + 1) iou i
      else best_match_loop track_box rest (i + 1) best_iou best_idx
  end.

Definition find_best_matching_detection_index (track_box : Box)
    (detection_boxes : list Box) : option Z :=
  let best_idx := snd (best_match_loop track_box detection_boxes 0 0 (-1)) in
  if best_idx =? -1 then None else Some best_idx.

(** The IoU of the track box with the detection at index [i], when there
    is one. *)
Definition iou_at (track_box : Box) (detection_boxes : list Box) (i : nat)
    : option Q :=
  compute_iou track_box <$> detection_boxes !! i.

(** The overlap of two boxes along each axis, before it is clamped at 0. *)
Definition overlap_x (boxA boxB : Box) : Q :=
  (pymin (c2 boxA) (c2 boxB) - pymax (c0 boxA) (c0 boxB))%Q.

Definition overlap_y (boxA boxB : Box) : Q :=
  (pymin (c3 boxA) (c3 boxB) - pymax (c1 boxA) (c1 boxB))%Q.

(** A box with a positive extent along both axes. *)
Definition non_degenerate (box : Box) : Prop :=
  (c0 box < c2 box)%Q /\ (c1 box < c3 box)%Q.

(** A box of one thousandth by one hundredth: its area is [1e-5]. *)
Definition tiny_box : Box := mkBox 0 0 (1 # 1000) (1 # 100).

(** What the loop of [find_best_matching_detection_index] knows after the
    boxes [seen]: either nothing has a positive IoU and the sentinel
    is still in place, or [best_idx] is the first index of the largest IoU
    seen, which is positive. *)
Definition best_so_far (track_box : Box) (seen : list Box)
    (best_iou : Q) (best_idx : Z) : Prop :=
  (best_idx = -1 /\ (best_iou == 0)%Q /\
   forall j q, iou_at track_box seen j = Some q -> (q <= 0)%Q)
  \/
  (exists i : nat,
     best_idx = Z.of_nat i /\
     iou_at track_box seen i = Some best_iou /\
     (0 < best_iou)%Q /\
     (forall j q, iou_at track_box seen j = Some q -> (q <= best_iou)%Q) /\
     (forall j q, (j < i)%nat -> iou_at track_box seen j = Some q ->
                  (q < best_iou)%Q)).

End Geometry.

(** ** The detection selector ([extract_detections]) *)

Module Selector.
Import Geometry.

(** One raw detection [[x1, x2, x3, x4, score]]. *)
Record RawDetection : Type := mkRaw { bbox : Box; det_score : Q }.

(** [config_data["visualization_params"]]; an absent key is [None] and
    [.get] supplies the default. *)
Record VisualizationParams : Type := mkParams {
  score_thres : option Q;
  max_boxes_to_draw : option Z
}.

Definition get_score_thres (p : VisualizationParams) : Q :=
  default (1 # 2) (score_thres p).

Definition get_max_boxes (p : VisualizationParams) : Z :=
  default 50 (max_boxes_to_draw p).

(** [int(q)]: truncation towards zero. *)
Definition int_of_Q (q : Q) : Z := Z.quot (Qnum q) (Zpos (Qden q)).

(** One iteration of the loop of [denormalize_and_rm_pad], at index [i]. *)
Definition denormalize_coord (size padding_length input_height input_width : Z)
    (i : Z) (x : Q) : Z :=
  let v := int_of_Q (Binary64.float_mul x (Binary64.float_of_int size)) in
  let v := if negb (input_width =? size) && negb (i mod 2 =? 0)
           then v - padding_length else v in
  let v := if negb (input_height =? size) && (i mod 2 =? 0)
           then v - padding_length else v in
  v.

Definition denormalize_and_rm_pad (box : Box)
    (size padding_length input_height input_width : Z) : Box :=
  let f := denormalize_coord size padding_length input_height input_width in
  mkBox (inject_Z (f 0 (c0 box))) (inject_Z (f 1 (c1 box)))
        (inject_Z (f 2 (c2 box))) (inject_Z (f 3 (c3 box))).

(** [int(abs(img_height - img_width) / 2)]: a true division, which gives
    a float, and its truncation. *)
Definition padding_for (img_height img_width : Z) : Z :=
  int_of_Q (Binary64.round64 (inject_Z (Z.abs (img_height - img_width)) / 2)).

Definition default_target_labels : list string := ["person"; "car"]%string.

(** The indices [idx] (counted from [idx0]) of the labels that belong to
    [target_classes]. *)
Fixpoint target_indices_from (target_classes : gset string)
    (labels : list string) (idx0 : Z) : gset Z :=
  match labels with
  | [] => ∅
  | label :: rest =>
      (if bool_decide (label ∈ target_classes) then {[ idx0 ]} else ∅)
        ∪ target_indices_from target_classes rest (idx0 + 1)
  end.

Definition target_class_indices (labels : list string)
    (target_labels : option (list string)) : gset Z :=
  let target_labels := default default_target_labels target_labels in
  target_indices_from (list_to_set target_labels) labels 0.

(** An entry [(score, class_id, denorm_bbox)] of [all_detections]. *)
Record Candidate : Type := mkCand {
  cand_score : Q;
  cand_class : Z;
  cand_box : Box
}.

(** The inner loop: the detections of one class that reach the threshold. *)
Fixpoint collect_class (score_threshold : Q)
    (size padding_length img_height img_width : Z) (class_id : Z)
    (detection : list RawDetection) : list Candidate :=
  match detection with
  | [] => []
  | det :: rest =>
      let tail := collect_class score_threshold size padding_length
                    img_height img_width class_id rest in
      if Qle_bool score_threshold (det_score det) then
        mkCand (det_score det) class_id
          (denormalize_and_rm_pad (bbox det) size padding_length
             img_height img_width) :: tail
      else tail
  end.

(** The outer loop over [enumerate(detections)], from class index
    [class_id]. *)
Fixpoint collect (indices : gset Z) (score_threshold : Q)
    (size padding_length img_height img_width : Z) (class_id : Z)
    (detections : list (list RawDetection)) : list Candidate :=
  match detections with
  | [] => []
  | detection :: rest =>
      (if bool_decide (class_id ∈ indices)
       then collect_class score_threshold size padding_length
              img_height img_width class_id detection
       else [])
      ++ collect indices score_threshold size padding_length
           img_height img_width (class_id + 1) rest
  end.

(** [list.sort(reverse=True, key=score)]: a stable sort, so entries of
    equal score keep their order. *)
Fixpoint insert_desc (x : Candidate) (l : list Candidate) : list Candidate :=
  match l with
  | [] => [x]
  | y :: rest =>
      if Qltb (cand_score x) (cand_score y)
      then y :: insert_desc x rest
      else x :: l
  end.

Fixpoint sort_desc (l : list Candidate) : list Candidate :=
  match l with
  | [] => []
  | x :: rest => insert_desc x (sort_desc rest)
  end.

(** The slice [l[:n]]: a negative [n] counts from the end. *)
Definition slice_to {A : Type} (l : list A) (n : Z) : list A :=
  if n <? 0
  then firstn (Z.to_nat (Z.of_nat (length l) + n)) l
  else firstn (Z.to_nat n) l.

(** The returned dict. *)
Record Detections : Type := mkDetections {
  detection_boxes : list Box;
  detection_classes : list Z;
  detection_scores : list Q;
  num_detections : Z
}.

Definition all_detections (img_height img_width : Z)
    (detections : list (list RawDetection)) (config : VisualizationParams)
    (labels : list string) (target_labels : option (list string))
    : list Candidate :=
  let size := Z.max img_height img_width in
  let padding_length := padding_for img_height img_width in
  collect (target_class_indices labels target_labels)
    (get_score_thres config) size padding_length img_height img_width
    0 detections.

Definition top_detections (img_height img_width : Z)
    (detections : list (list RawDetection)) (config : VisualizationParams)
    (labels : list string) (target_labels : option (list string))
    : list Candidate :=
  slice_to
    (sort_desc (all_detections img_height img_width detections config
                  labels target_labels))
    (get_max_boxes config).

Definition extract_detections (img_height img_width : Z)
    (detections : list (list RawDetection)) (config : VisualizationParams)
    (labels : list string) (target_labels : option (list string))
    : Detections :=
  let top := top_detections img_height img_width detections config
               labels target_labels in
  {| detection_boxes := cand_box <$> top;
     detection_classes := cand_class <$> top;
     detection_scores := cand_score <$> top;
     num_detections := Z.of_nat (length top) |}.

(** What holds of every entry of the candidate pool. *)
Definition admissible (indices : gset Z) (thr : Q) (c : Candidate) : Prop :=
  cand_class c ∈ indices /\ (thr <= cand_score c)%Q.

(** The order of the sorted pool: the later entry scores no higher. *)
Definition desc (a b : Candidate) : Prop := (cand_score b <= cand_score a)%Q.

(** A label vocabulary of three classes with one raw detection each: a
    person at 0.9, a car at 0.3 and a dog at 0.95, on a 640 by 480 frame. *)
Definition scenario_labels : list string := ["person"; "car"; "dog"]%string.

Definition scenario_box : Box := mkBox (1 # 4) (1 # 4) (1 # 2) (1 # 2).

Definition scenario_detections : list (list RawDetection) :=
  [[mkRaw scenario_box (9 # 10)];
   [mkRaw scenario_box (3 # 10)];
   [mkRaw scenario_box (95 # 100)]].

Definition scenario_config : VisualizationParams :=
  mkParams (Some (1 # 2)) (Some 50).

(** A configuration whose [max_boxes_to_draw] is negative. *)
Definition negative_config : VisualizationParams :=
  mkParams (Some (1 # 2)) (Some (-1)).

Definition two_persons : list (list RawDetection) :=
  [[mkRaw scenario_box (9 # 10); mkRaw scenario_box (8 # 10)]].

(** The entries of a given score. *)
Definition has_score (v : Q) (c : Candidate) : bool :=
  Qeq_bool (cand_score c) v.

(** The parameters [extract_detections] passes to
    [denormalize_and_rm_pad] for an image of [img_height] by [img_width]. *)
Definition denormalize_for (img_height img_width : Z) (box : Box) : Box :=
  denormalize_and_rm_pad box (Z.max img_height img_width)
    (padding_for img_height img_width) img_height img_width.

(** *** The same function on unvalidated arguments

    [extract_detections] above takes a configuration that has
    ["visualization_params"] and rows that have a box and a score.  On the
    values Python hands over, two accesses can raise: the lookup
    [config_data["visualization_params"]] ([KeyError]) and [det[4]]
    ([IndexError]), the latter only for the rows of target classes, the
    only ones the loop touches. *)

(** [config_data]: a dict that may lack the key. *)
Record ConfigData : Type := mkConfig {
  visualization_params : option VisualizationParams
}.

(** [bbox, score = det[:4], det[4]] on a row of numbers. *)
Definition unpack_row (det : list Q) : option RawDetection :=
  match det with
  | x0 :: x1 :: x2 :: x3 :: score :: _ =>
      Some (mkRaw (mkBox x0 x1 x2 x3) score)
  | _ => None
  end.

Fixpoint collect_class_raw (score_threshold : Q)
    (size padding_length img_height img_width : Z) (class_id : Z)
    (detection : list (list Q)) : option (list Candidate) :=
  match detection with
  | [] => Some []
  | det :: rest =>
      d ← unpack_row det;
      tail ← collect_class_raw score_threshold size padding_length
               img_height img_width class_id rest;
      Some (if Qle_bool score_threshold (det_score d) then
              mkCand (det_score d) class_id
                (denormalize_and_rm_pad (bbox d) size padding_length
                   img_height img_width) :: tail
            else tail)
  end.

Fixpoint collect_raw (indices : gset Z) (score_threshold : Q)
    (size padding_length img_height img_width : Z) (class_id : Z)
    (detections : list (list (list Q))) : option (list Candidate) :=
  match detections with
  | [] => Some []
  | detection :: rest =>
      here ← (if bool_decide (class_id ∈ indices)
              then collect_class_raw score_threshold size padding_length
                     img_height img_width class_id detection
              else Some []);
      more ← collect_raw indices score_threshold size padding_length
               img_height img_width (class_id + 1) rest;
      Some (here ++ more)
  end.

Definition extract_detections_raw (img_height img_width : Z)
    (detections : list (list (list Q))) (config_data : ConfigData)
    (labels : list string) (target_labels : option (list string))
    : option Detections :=
  let indices := target_class_indices labels target_labels in
  params ← visualization_params config_data;
  let size := Z.max img_height img_width in
  let padding_length := padding_for img_height img_width in
  pool ← collect_raw indices (get_score_thres params) size padding_length
           img_height img_width 0 detections;
  let top := slice_to (sort_desc pool) (get_max_boxes params) in
  Some {| detection_boxes := cand_box <$> top;
          detection_classes := cand_class <$> top;
          detection_scores := cand_score <$> top;
          num_detections := Z.of_nat (length top) |}.

(** The rows of the target classes, unpacked; the rows of other classes
    are never read and are left out. *)
Fixpoint unpack_rows (detection : list (list Q)) : option (list RawDetection) :=
  match detection with
  | [] => Some []
  | det :: rest =>
      d ← unpack_row det;
      ds ← unpack_rows rest;
      Some (d :: ds)
  end.

Fixpoint unpack_classes (indices : gset Z) (class_id : Z)
    (detections : list (list (list Q))) : option (list (list RawDetection)) :=
  match detections with
  | [] => Some []
  | detection :: rest =>
      rows ← (if bool_decide (class_id ∈ indices)
              then unpack_rows detection else Some []);
      more ← unpack_classes indices (class_id + 1) rest;
      Some (rows :: more)
  end.

(** A row of four numbers, and a row with a box and a score. *)
Definition short_row : list Q := [0%Q; 0%Q; 1%Q; 1%Q].
Definition full_row : list Q := [0%Q; 0%Q; 1%Q; 1%Q; 9 # 10].


End Selector.

(** ** The frame orchestrator ([draw_detections]) *)

Module Orchestrator.
Import Geometry Selector Loitering.

(** A track object of the external tracker: [track_id], [tlbr], [score]. *)
Record Track : Type := mkTrack { track_id : Z; tlbr : Box; score : Q }.

(** The external tracker for one frame: [tracker.update] maps the rows
    [[*box, score]] to the online targets.  It is a black box, so every
    property below is stated for an arbitrary such function. *)
Definition Tracker : Type := list (Box * Q) -> list Track.

(** [l[i]] on a Python list: a negative index counts from the end, an
    index out of range raises. *)
Definition getitem {A : Type} (l : list A) (i : Z) : option A :=
  if i <? 0 then
    if Z.of_nat (length l) + i <? 0 then None
    else l !! Z.to_nat (Z.of_nat (length l) + i)
  else l !! Z.to_nat i.

(** [range(n)] *)
Definition range (n : Z) : list Z := Z.of_nat <$> seq 0 (Z.to_nat n).

(** The loop that keeps the detections of target classes, over the indices
    [idxs]; the result is [(target_boxes, target_scores,
    target_classes_filtered)]. *)
Fixpoint filter_targets (indices : gset Z) (boxes : list Box)
    (scores : list Q) (classes : list Z) (idxs : list Z)
    : option (list Box * list Q * list Z) :=
  match idxs with
  | [] => Some ([], [], [])
  | i :: rest =>
      cls ← getitem classes i;
      if bool_decide (cls ∈ indices) then
        b ← getitem boxes i;
        s ← getitem scores i;
        '(bs, ss, cs) ← filter_targets indices boxes scores classes rest;
        Some (b :: bs, s :: ss, cls :: cs)
      else filter_targets indices boxes scores classes rest
  end.

(** One call of [draw_detection]: the box, the class label, the track id
    when tracking, the displayed score and whether the box is red. *)
Record Drawn : Type := mkDrawn {
  drawn_box : Box;
  drawn_label : string;
  drawn_track : option Z;
  drawn_score : Q;
  drawn_red : bool
}.

(** What a frame has done so far: the manager (when one was passed), the
    calls made on it in order, the set [current_track_ids] and the boxes
    drawn. *)
Record FrameState : Type := mkFrame {
  manager : option LoiteringDetectionManager;
  calls : list Call;
  current_track_ids : gset Z;
  drawn : list Drawn
}.

Definition int_box (b : Box) : Box :=
  mkBox (inject_Z (int_of_Q (c0 b))) (inject_Z (int_of_Q (c1 b)))
        (inject_Z (int_of_Q (c2 b))) (inject_Z (int_of_Q (c3 b))).

(** The body of the loop over [online_targets].  The speed manager is a
    separate object of a module outside this file; its calls touch neither
    the loitering manager nor [current_track_ids] and are left out. *)
Definition process_track (labels : list string) (boxes : list Box)
    (classes : list Z) (loitering_detection enable_person_only : bool)
    (person_class_index : Z) (st : FrameState) (track : Track)
    : option FrameState :=
  match find_best_matching_detection_index (tlbr track) boxes with
  | None => Some st
  | Some best_idx =>
      cls ← getitem classes best_idx;
      let ids := {[ track_id track ]} ∪ current_track_ids st in
      let is_person :=
        negb (person_class_index =? -1) && (cls =? person_class_index) in
      let is_relevant := negb enable_person_only || is_person in
      let '(loitering, mgr, cs) :=
        match manager st with
        | Some m =>
            if loitering_detection && is_relevant then
              let m1 := update_track m (track_id track) in
              let '(r, m2) := is_loitering m1 (track_id track) in
              (r, Some m2,
               calls st ++ [CallUpdateTrack (track_id track);
                            CallIsLoitering (track_id track)])
            else (false, Some m, calls st)
        | None => (false, None, calls st)
        end in
      label ← getitem labels cls;
      Some {| manager := mgr;
              calls := cs;
              current_track_ids := ids;
              drawn := drawn st ++
                [mkDrawn (int_box (tlbr track)) label (Some (track_id track))
                   (Binary64.float_mul (score track) 100) loitering] |}
  end.

Fixpoint process_tracks (labels : list string) (boxes : list Box)
    (classes : list Z) (loitering_detection enable_person_only : bool)
    (person_class_index : Z) (st : FrameState) (online_targets : list Track)
    : option FrameState :=
  match online_targets with
  | [] => Some st
  | track :: rest =>
      st' ← process_track labels boxes classes loitering_detection
              enable_person_only person_class_index st track;
      process_tracks labels boxes classes loitering_detection
        enable_person_only person_class_index st' rest
  end.

(** The path without a tracker: draw each filtered detection. *)
Fixpoint draw_raw (labels : list string) (boxes : list Box) (scores : list Q)
    (classes : list Z) (idxs : list Z) : option (list Drawn) :=
  match idxs with
  | [] => Some []
  | idx :: rest =>
      cls ← getitem classes idx;
      b ← getitem boxes idx;
      label ← getitem labels cls;
      s ← getitem scores idx;
      ds ← draw_raw labels boxes scores classes rest;
      Some (mkDrawn (int_box b) label None (Binary64.float_mul s 100) false
            :: ds)
  end.

(** The detections that pass the class filter at the head of
    [draw_detections]. *)
Definition filtered_detections (detections : Detections)
    (labels : list string) (target_labels : option (list string))
    : option (list Box * list Q * list Z) :=
  filter_targets (target_class_indices labels target_labels)
    (detection_boxes detections) (detection_scores detections)
    (detection_classes detections) (range (num_detections detections)).

Definition draw_detections (detections : Detections) (labels : list string)
    (tracker : option Tracker) (target_labels : option (list string))
    (loitering_detection : bool)
    (loitering_manager : option LoiteringDetectionManager)
    (enable_person_only : bool) (person_class_index : Z)
    : option FrameState :=
  '(boxes, scores, classes) ←
     filtered_detections detections labels target_labels;
  let num_detections := Z.of_nat (length boxes) in
  let start := mkFrame loitering_manager [] ∅ [] in
  match tracker with
  | Some tracker =>
      let dets_for_tracker := zip boxes scores in
      match dets_for_tracker with
      | [] => Some start
      | _ :: _ =>
          let online_targets := tracker dets_for_tracker in
          let st :=
            match loitering_manager with
            | Some m => mkFrame (Some (update_frame_count m))
                          [CallUpdateFrameCount] ∅ []
            | None => start
            end in
          st ← process_tracks labels boxes classes loitering_detection
                 enable_person_only person_class_index st online_targets;
          match manager st with
          | Some m =>
              m' ← cleanup_missing_tracks m (current_track_ids st);
              Some {| manager := Some m';
                      calls := calls st ++ [CallCleanup (current_track_ids st)];
                      current_track_ids := current_track_ids st;
                      drawn := drawn st |}
          | None => Some st
          end
      end
  | None =>
      ds ← draw_raw labels boxes scores classes (range num_detections);
      Some (mkFrame loitering_manager [] ∅ ds)
  end.

(** The calls made inside the loop over the tracks. *)
Definition is_track_call (c : Call) : Prop :=
  match c with
  | CallUpdateTrack _ | CallIsLoitering _ => True
  | CallUpdateFrameCount | CallCleanup _ => False
  end.

(** A track for which the matcher finds a detection. *)
Definition matched (boxes : list Box) (track : Track) : bool :=
  match find_best_matching_detection_index (tlbr track) boxes with
  | Some _ => true
  | None => false
  end.

(** The ids of the matched tracks among [online_targets]. *)
Fixpoint matched_ids (boxes : list Box) (online_targets : list Track)
    : gset Z :=
  match online_targets with
  | [] => ∅
  | track :: rest =>
      (if matched boxes track then {[ track_id track ]} else ∅)
        ∪ matched_ids boxes rest
  end.

(** Filtered detections whose class ids index the label vocabulary. *)
Definition valid_filtered (labels : list string) (boxes : list Box)
    (classes : list Z) : Prop :=
  length classes = length boxes /\
  Forall (fun c => 0 <= c < Z.of_nat (length labels)) classes.

(** A frame on which nothing reaches the score threshold. *)
Definition quiet_frame : Detections :=
  extract_detections 480 640 [[mkRaw scenario_box (3 # 10)]] scenario_config
    scenario_labels None.

(** A frame with one person, and a tracker that reports two tracks: track
    1 on the person and track 2 elsewhere in the image. *)
Definition person_frame : Detections :=
  extract_detections 480 640 scenario_detections scenario_config
    scenario_labels None.

Definition two_tracks : Tracker :=
  fun _ => [mkTrack 1 (mkBox 80 160 240 320) (9 # 10);
            mkTrack 2 (mkBox 400 400 450 470) (1 # 2)].

(** A manager at frame 16 that has been following tracks 1 and 2. *)
Definition following_both : LoiteringDetectionManager :=
  Manager 1 (1 * 10) {[ 1 := 5; 2 := 6 ]} 16.

(** A call made for a track inside the loop: the track is one of the
    online targets, the matcher found a detection of class [cls] for it,
    loitering detection is on, and in person-only mode the class is the
    person class. *)
Definition observed (boxes : list Box) (classes : list Z)
    (loitering_detection enable_person_only : bool) (person_class_index : Z)
    (online_targets : list Track) (c : Call) : Prop :=
  exists track best_idx cls,
    track ∈ online_targets /\
    (c = CallUpdateTrack (track_id track) \/
     c = CallIsLoitering (track_id track)) /\
    find_best_matching_detection_index (tlbr track) boxes = Some best_idx /\
    getitem classes best_idx = Some cls /\
    loitering_detection = true /\
    (enable_person_only = true ->
     person_class_index <> -1 /\ cls = person_class_index).

(** The loop of [inference_result_handler] that looks for the label
    ["person"], counting from [idx]; [-1] when there is none. *)
Fixpoint person_index_from (labels : list string) (idx : Z) : Z :=
  match labels with
  | [] => -1
  | label :: rest =>
      if String.eqb label "person" then idx
      else person_index_from rest (idx + 1)
  end.

(** [inference_result_handler]: the entry point for one frame, on a
    configuration that has ["visualization_params"] and on rows already
    unpacked into a box and a score; [inference_result_handler_raw] below
    is the same entry point on unvalidated arguments.  The image is
    represented by its height and width; the fallback construction of a
    speed manager concerns a class outside this file and is left out. *)
Definition inference_result_handler (img_height img_width : Z)
    (infer_results : list (list RawDetection)) (labels : list string)
    (config_data : VisualizationParams) (tracker : option Tracker)
    (target_labels : option (list string)) (loitering_detection : bool)
    (loitering_manager : option LoiteringDetectionManager)
    (enable_person_only : bool) : option FrameState :=
  let target_labels := default default_target_labels target_labels in
  let person_class_index :=
    if enable_person_only || loitering_detection
    then person_index_from labels 0 else -1 in
  let loitering_detection :=
    if (enable_person_only || loitering_detection)
       && (enable_person_only && (person_class_index =? -1))
    then false else loitering_detection in
  let detections :=
    extract_detections img_height img_width infer_results config_data
      labels (Some target_labels) in
  draw_detections detections labels tracker (Some target_labels)
    loitering_detection loitering_manager enable_person_only
    person_class_index.

(** Every box drawn in red belongs to a track in [current_track_ids] that
    the manager of the state reports as loitering. *)
Definition red_is_loitering (st : FrameState) : Prop :=
  forall d, d ∈ drawn st -> drawn_red d = true ->
    exists id m,
      drawn_track d = Some id /\ manager st = Some m /\
      id ∈ current_track_ids st /\ fst (is_loitering m id) = true.

(** [inference_result_handler] on unvalidated arguments: as above, with
    [extract_detections_raw] in the place of [extract_detections]. *)
Definition inference_result_handler_raw (img_height img_width : Z)
    (infer_results : list (list (list Q))) (labels : list string)
    (config_data : ConfigData) (tracker : option Tracker)
    (target_labels : option (list string)) (loitering_detection : bool)
    (loitering_manager : option LoiteringDetectionManager)
    (enable_person_only : bool) : option FrameState :=
  let target_labels := default default_target_labels target_labels in
  let person_class_index :=
    if enable_person_only || loitering_detection
    then person_index_from labels 0 else -1 in
  let loitering_detection :=
    if (enable_person_only || loitering_detection)
       && (enable_person_only && (person_class_index =? -1))
    then false else loitering_detection in
  detections ←
    extract_detections_raw img_height img_width infer_results config_data
      labels (Some target_labels);
  draw_detections detections labels tracker (Some target_labels)
    loitering_detection loitering_manager enable_person_only
    person_class_index.

End Orchestrator.

(** * Properties *)

(** ** Comparisons on rationals *)

Lemma Qltb_lt (x y : Q) : Qltb x y = true <-> (x < y)%Q.
Proof.
  unfold Qltb. rewrite negb_true_iff, <- not_true_iff_false, Qle_bool_iff.
  split; [apply Qnot_le_lt | apply Qlt_not_le].
Qed.

Lemma Qltb_ge (x y : Q) : Qltb x y = false <-> (y <= x)%Q.
Proof. unfold Qltb. rewrite negb_false_iff. apply Qle_bool_iff. Qed.

(** ** Binary64 rounding *)

Section Binary64Facts.
Import Binary64.

Lemma pow2_pos (e : Z) : (0 < 2 ^ e)%Q.
Proof. apply Qpower_0_lt. reflexivity. Qed.

Lemma pow2_add (a b : Z) : (2 ^ (a + b) == 2 ^ a * 2 ^ b)%Q.
Proof. apply Qpower_plus. discriminate. Qed.

Lemma pow2_le (a b : Z) : a <= b -> (2 ^ a <= 2 ^ b)%Q.
Proof. intros H. apply Qpower_le_compat_l; [exact H | discriminate]. Qed.

Lemma pow2_cancel (e : Z) : (2 ^ e * 2 ^ (- e) == 1)%Q.
Proof. rewrite <- pow2_add, Z.add_opp_diag_r. reflexivity. Qed.

Lemma pow2_Z (n : Z) : 0 <= n -> (inject_Z (2 ^ n) == 2 ^ n)%Q.
Proof. intros H. apply (Zpower_Qpower 2 n H). Qed.

Lemma round_half_even_cases (q : Q) :
  round_half_even q = Qfloor q \/ round_half_even q = Qfloor q + 1.
Proof.
  unfold round_half_even. destruct (Qcompare _ _); [destruct (Z.even _)|..]; tauto.
Qed.

Lemma round_half_even_mono (x y : Q) :
  (x <= y)%Q -> round_half_even x <= round_half_even y.
Proof.
  intros Hxy. pose proof (Qfloor_resp_le _ _ Hxy) as Hf.
  destruct (Z.eq_dec (Qfloor x) (Qfloor y)) as [Heq|Hne].
  - unfold round_half_even. rewrite <- Heq.
    destruct (Qcompare_spec (x - inject_Z (Qfloor x)) (1 # 2)) as [Hx|Hx|Hx];
      destruct (Qcompare_spec (y - inject_Z (Qfloor x)) (1 # 2)) as [Hy|Hy|Hy];
      try destruct (Z.even (Qfloor x)); try lia; exfalso; lra.
  - destruct (round_half_even_cases x) as [-> | ->];
      destruct (round_half_even_cases y) as [-> | ->]; lia.
Qed.

Lemma round_half_even_Z (q : Q) (k : Z) :
  (q == inject_Z k)%Q -> round_half_even q = k.
Proof.
  intros H. unfold round_half_even.
  assert (Hf : Qfloor q = k) by (rewrite H; apply Qfloor_Z).
  rewrite Hf.
  assert (Hc : (q - inject_Z k ?= 1 # 2)%Q = Lt).
  { apply Qlt_alt. rewrite H. unfold Qminus. rewrite Qplus_opp_r. reflexivity. }
  rewrite Hc. reflexivity.
Qed.

Lemma round_half_even_nonneg (q : Q) : (0 <= q)%Q -> 0 <= round_half_even q.
Proof.
  intros H. rewrite <- (round_half_even_Z 0 0) by reflexivity.
  apply round_half_even_mono. exact H.
Qed.

Lemma on_grid_mono (e : Z) (x y : Q) :
  (x <= y)%Q -> (on_grid e x <= on_grid e y)%Q.
Proof.
  intros H. unfold on_grid. pose proof (pow2_pos e). pose proof (pow2_pos (- e)).
  apply Qmult_le_compat_r; [|lra].
  rewrite <- Zle_Qle. apply round_half_even_mono.
  apply Qmult_le_compat_r; lra.
Qed.

Lemma on_grid_point (e k : Z) :
  (on_grid e (inject_Z k * 2 ^ e) == inject_Z k * 2 ^ e)%Q.
Proof.
  unfold on_grid. rewrite (round_half_even_Z _ k); [reflexivity|].
  rewrite <- Qmult_assoc, pow2_cancel. ring.
Qed.

Lemma on_grid_pow2 (e a : Z) : e <= a -> (on_grid e (2 ^ a) == 2 ^ a)%Q.
Proof.
  intros H.
  assert (Heq : (2 ^ a == inject_Z (2 ^ (a - e)) * 2 ^ e)%Q).
  { rewrite pow2_Z by lia. rewrite <- pow2_add. replace (a - e + e) with a by lia.
    reflexivity. }
  unfold on_grid at 1.
  rewrite (round_half_even_Z _ (2 ^ (a - e))).
  - symmetry. exact Heq.
  - rewrite Heq, <- Qmult_assoc, pow2_cancel. ring.
Qed.

Lemma on_grid_nonneg (e : Z) (q : Q) : (0 <= q)%Q -> (0 <= on_grid e q)%Q.
Proof.
  intros H. unfold on_grid. pose proof (pow2_pos e). pose proof (pow2_pos (- e)).
  apply Qmult_le_0_compat; [|lra].
  change 0%Q with (inject_Z 0). rewrite <- Zle_Qle.
  apply round_half_even_nonneg. apply Qmult_le_0_compat; lra.
Qed.

Lemma binade_spec (q : Q) :
  (0 < q)%Q -> (2 ^ binade q <= q)%Q /\ (q < 2 ^ (binade q + 1))%Q.
Proof.
  intros Hq. destruct q as [n d]. unfold binade. simpl Qnum. simpl Qden.
  assert (Hn : 0 < n) by (unfold Qlt in Hq; simpl in Hq; lia).
  set (ln := Z.log2 n). set (ld := Z.log2 (Zpos d)).
  destruct (Z.log2_spec n Hn) as [Hn1 Hn2]. fold ln in Hn1, Hn2.
  destruct (Z.log2_spec (Zpos d) eq_refl) as [Hd1 Hd2]. fold ld in Hd1, Hd2.
  assert (Hln : 0 <= ln) by apply Z.log2_nonneg.
  assert (Hld : 0 <= ld) by apply Z.log2_nonneg.
  (* n # d as a quotient of injections *)
  assert (Hq' : (n # d == inject_Z n / inject_Z (Zpos d))%Q).
  { rewrite (Qmake_Qdiv n d). reflexivity. }
  assert (Hdpos : (0 < inject_Z (Zpos d))%Q) by reflexivity.
  assert (Hup : (n # d < 2 ^ (ln - ld + 1))%Q).
  { rewrite Hq'. apply Qlt_shift_div_r; [exact Hdpos|].
    apply Qlt_le_trans with (inject_Z (2 ^ (ln + 1))).
    - rewrite <- Zlt_Qlt. replace (Z.succ ln) with (ln + 1) in Hn2 by lia. exact Hn2.
    - rewrite pow2_Z by lia.
      replace (ln + 1) with ((ln - ld + 1) + ld) by lia.
      rewrite pow2_add. apply Qmult_le_l; [apply pow2_pos|].
      rewrite <- pow2_Z by lia. rewrite <- Zle_Qle. exact Hd1. }
  assert (Hlow : (2 ^ (ln - ld - 1) <= n # d)%Q).
  { rewrite Hq'. apply Qle_shift_div_l; [exact Hdpos|].
    apply Qle_trans with (inject_Z (2 ^ ln)).
    - rewrite pow2_Z by lia.
      replace ln with ((ln - ld - 1) + (ld + 1)) at 2 by lia.
      rewrite pow2_add. apply Qmult_le_l; [apply pow2_pos|].
      rewrite <- pow2_Z by lia. rewrite <- Zle_Qle.
      replace (Z.succ ld) with (ld + 1) in Hd2 by lia. lia.
    - rewrite <- Zle_Qle. exact Hn1. }
  destruct (Qle_bool (2 ^ (ln - ld)) (n # d)) eqn:Hb.
  - apply Qle_bool_iff in Hb. split; [exact Hb | exact Hup].
  - split; [exact Hlow|].
    replace (ln - ld - 1 + 1) with (ln - ld) by lia.
    apply Qnot_le_lt. intros Hc. apply Qle_bool_iff in Hc. congruence.
Qed.

Lemma binade_mono (x y : Q) :
  (0 < x)%Q -> (x <= y)%Q -> binade x <= binade y.
Proof.
  intros Hx Hxy.
  destruct (binade_spec x Hx) as [Hx1 _].
  destruct (binade_spec y) as [_ Hy2]; [lra|].
  destruct (Z_le_gt_dec (binade x) (binade y)) as [H|H]; [exact H|].
  exfalso. assert (Hp : (2 ^ (binade y + 1) <= 2 ^ binade x)%Q)
    by (apply pow2_le; lia).
  lra.
Qed.

Lemma round_nonneg_nonneg (q : Q) : (0 <= q)%Q -> (0 <= round_nonneg q)%Q.
Proof.
  intros H. unfold round_nonneg. rewrite Qred_correct.
  apply on_grid_nonneg. exact H.
Qed.

Lemma round_nonneg_upper (q : Q) :
  (0 < q)%Q -> (round_nonneg q <= 2 ^ (grid_exponent q + 53))%Q.
Proof.
  intros Hq. unfold round_nonneg. rewrite Qred_correct.
  rewrite <- (on_grid_pow2 (grid_exponent q) (grid_exponent q + 53)) by lia.
  apply on_grid_mono.
  destruct (binade_spec q Hq) as [_ H2].
  apply Qlt_le_weak, (Qlt_le_trans _ _ _ H2), pow2_le.
  unfold grid_exponent. lia.
Qed.

Lemma round_nonneg_lower (q : Q) :
  (0 < q)%Q -> -1022 <= binade q ->
  (2 ^ (grid_exponent q + 52) <= round_nonneg q)%Q.
Proof.
  intros Hq Hb. unfold round_nonneg. rewrite Qred_correct.
  rewrite <- (on_grid_pow2 (grid_exponent q) (grid_exponent q + 52)) by lia.
  apply on_grid_mono.
  destruct (binade_spec q Hq) as [H1 _].
  unfold grid_exponent. replace (Z.max (binade q) (-1022) - 52 + 52)
    with (binade q) by lia. exact H1.
Qed.

Lemma round_nonneg_mono (x y : Q) :
  (0 <= x)%Q -> (x <= y)%Q -> (round_nonneg x <= round_nonneg y)%Q.
Proof.
  intros Hx Hxy.
  destruct (Qle_lt_or_eq _ _ Hx) as [Hpos|Hz]; cycle 1.
  - apply Qle_trans with 0%Q; [|apply round_nonneg_nonneg; lra].
    unfold round_nonneg. rewrite Qred_correct. unfold on_grid.
    rewrite (round_half_even_Z _ 0).
    + change (inject_Z 0) with 0%Q. rewrite Qmult_0_l. apply Qle_refl.
    + transitivity (0 * 2 ^ (- grid_exponent x))%Q; [|ring].
      apply Qmult_comp; [symmetry; exact Hz | reflexivity].
  - assert (Hy : (0 < y)%Q) by lra.
    pose proof (binade_mono x y Hpos Hxy) as Hb.
    destruct (Z.eq_dec (grid_exponent x) (grid_exponent y)) as [He|He].
    + unfold round_nonneg. rewrite !Qred_correct, He. apply on_grid_mono, Hxy.
    + assert (Hlt : grid_exponent x < grid_exponent y)
        by (unfold grid_exponent in *; lia).
      apply Qle_trans with (2 ^ (grid_exponent x + 53))%Q;
        [apply round_nonneg_upper; exact Hpos|].
      apply Qle_trans with (2 ^ (grid_exponent y + 52))%Q;
        [apply pow2_le; lia|].
      apply round_nonneg_lower; [exact Hy|].
      unfold grid_exponent in *. lia.
Qed.

Lemma round64_mono (x y : Q) : (x <= y)%Q -> (round64 x <= round64 y)%Q.
Proof.
  intros Hxy. unfold round64.
  destruct (Qle_bool 0 x) eqn:Hx; destruct (Qle_bool 0 y) eqn:Hy.
  - apply Qle_bool_iff in Hx. apply round_nonneg_mono; assumption.
  - apply Qle_bool_iff in Hx.
    assert (~ (0 <= y)%Q) by (rewrite <- Qle_bool_iff; congruence). lra.
  - apply Qle_bool_iff in Hy.
    assert (Hnx : ~ (0 <= x)%Q) by (rewrite <- Qle_bool_iff; congruence).
    pose proof (round_nonneg_nonneg (- x)). pose proof (round_nonneg_nonneg y Hy).
    lra.
  - assert (Hnx : ~ (0 <= x)%Q) by (rewrite <- Qle_bool_iff; congruence).
    assert (Hny : ~ (0 <= y)%Q) by (rewrite <- Qle_bool_iff; congruence).
    apply Qopp_le_compat. apply round_nonneg_mono; lra.
Qed.

Lemma round64_nonneg (q : Q) : (0 <= q)%Q -> (0 <= round64 q)%Q.
Proof.
  intros H. unfold round64. rewrite (proj2 (Qle_bool_iff 0 q) H).
  apply round_nonneg_nonneg, H.
Qed.

End Binary64Facts.

Section MachineFloats.
Import Binary64.
Import PrimFloat.

(** [round64] agrees with the machine's binary64 arithmetic: on the
    literals 3.3, 0.57, 0.29, 0.7 and 1e-5, on the products 3.3 * 10,
    0.57 * 100, 0.29 * 100 and 0.7 * 100, and on a tie among the
    subnormal numbers. *)
Example round64_agrees_with_machine :
  Some (float_lit (33 # 10)) = float_value 0x1.a666666666666p+1%float /\
  Some (float_lit (57 # 100)) = float_value 0x1.23d70a3d70a3dp-1%float /\
  Some (float_lit (29 # 100)) = float_value 0x1.28f5c28f5c28fp-2%float /\
  Some (float_lit (7 # 10)) = float_value 0x1.6666666666666p-1%float /\
  Some (float_lit (1 # 100000)) = float_value 0x1.4f8b588e368f1p-17%float /\
  Some (float_mul (float_lit (33 # 10)) 10)
    = float_value (PrimFloat.mul 0x1.a666666666666p+1 10)%float /\
  Some (float_mul (float_lit (57 # 100)) 100)
    = float_value (PrimFloat.mul 0x1.23d70a3d70a3dp-1 100)%float /\
  Some (float_mul (float_lit (29 # 100)) 100)
    = float_value (PrimFloat.mul 0x1.28f5c28f5c28fp-2 100)%float /\
  Some (float_mul (float_lit (7 # 10)) 100)
    = float_value (PrimFloat.mul 0x1.6666666666666p-1 100)%float /\
  Some (round64 (5 * 2 ^ (-1075)))
    = float_value (PrimFloat.mul 0x1p-1073 1)%float.
Proof. repeat split; vm_compute; reflexivity. Qed.

End MachineFloats.

(** ** The loitering manager *)

Section LoiteringFacts.
Import Loitering.

Lemma contains_true k (d : gmap Z Z) :
  defaultdict_contains k d = true <-> is_Some (d !! k).
Proof. unfold defaultdict_contains. apply bool_decide_eq_true. Qed.

Lemma contains_false k (d : gmap Z Z) :
  defaultdict_contains k d = false <-> d !! k = None.
Proof.
  unfold defaultdict_contains. rewrite bool_decide_eq_false.
  rewrite eq_None_not_Some. reflexivity.
Qed.

Lemma contains_Some k v (d : gmap Z Z) :
  d !! k = Some v -> defaultdict_contains k d = true.
Proof. intros H. apply contains_true. eauto. Qed.

(** Reading a key that is present returns its value and inserts nothing. *)
Lemma getitem_present k v (d : gmap Z Z) :
  d !! k = Some v -> defaultdict_getitem k d = (v, d).
Proof. intros H. unfold defaultdict_getitem. rewrite H. reflexivity. Qed.

(** The two branches of [is_loitering]. *)
Lemma is_loitering_unknown self track_id :
  track_start_frames self !! track_id = None ->
  is_loitering self track_id = (false, self).
Proof.
  intros H. unfold is_loitering.
  rewrite (proj2 (contains_false _ _) H). reflexivity.
Qed.

Lemma is_loitering_known self track_id start :
  track_start_frames self !! track_id = Some start ->
  is_loitering self track_id =
    (Qltb (frame_threshold self) (inject_Z (current_frame self - start)), self).
Proof.
  intros H. unfold is_loitering.
  rewrite (contains_Some _ _ _ H). simpl.
  rewrite (getitem_present _ _ _ H).
  destruct self; reflexivity.
Qed.

Lemma update_track_known self track_id start :
  track_start_frames self !! track_id = Some start ->
  update_track self track_id = self.
Proof.
  intros H. unfold update_track. rewrite (contains_Some _ _ _ H). reflexivity.
Qed.

Lemma update_track_unknown self track_id :
  track_start_frames self !! track_id = None ->
  update_track self track_id =
    with_track_start_frames
      (<[track_id := current_frame self]> (track_start_frames self)) self.
Proof.
  intros H. unfold update_track.
  rewrite (proj2 (contains_false _ _) H). reflexivity.
Qed.

(** The deletion loop succeeds on distinct keys that are all present, and
    removes exactly them. *)
Lemma delete_ids_spec (ids : list Z) :
  forall d : gmap Z Z,
    NoDup ids ->
    (forall k, k ∈ ids -> is_Some (d !! k)) ->
    exists d' : gmap Z Z,
      delete_ids ids d = Some d' /\
      forall k, d' !! k = if decide (k ∈ ids) then None else d !! k.
Proof.
  induction ids as [|a ids IH]; intros d Hnd Hin; simpl.
  - exists d. split; [reflexivity|]. intros k.
    destruct (decide (k ∈ [])) as [Hk|_]; [inversion Hk | reflexivity].
  - apply NoDup_cons in Hnd as [Ha Hnd].
    unfold defaultdict_delitem.
    rewrite (proj2 (contains_true a d)) by (apply Hin; left).
    destruct (IH (delete a d) Hnd) as (d' & Hd' & Hl).
    { intros k Hk. rewrite lookup_delete_ne.
      - apply Hin. right. exact Hk.
      - intros ->. contradiction. }
    exists d'. split; [exact Hd'|]. intros k. rewrite Hl.
    destruct (decide (k ∈ ids)) as [Hk|Hk].
    + rewrite decide_True by (right; exact Hk). reflexivity.
    + destruct (decide (k = a)) as [->|Hne].
      * rewrite decide_True by left. apply lookup_delete_eq.
      * rewrite decide_False.
        -- apply lookup_delete_ne. congruence.
        -- intros Hc. apply elem_of_cons in Hc as [?|?]; contradiction.
Qed.

Lemma keys_NoDup (d : gmap Z Z) : NoDup (defaultdict_keys d).
Proof. apply NoDup_fst_map_to_list. Qed.

Lemma keys_elem (d : gmap Z Z) k : k ∈ defaultdict_keys d <-> is_Some (d !! k).
Proof.
  unfold defaultdict_keys. rewrite list_elem_of_fmap. split.
  - intros ([k' v] & -> & Hin). apply elem_of_map_to_list in Hin. eauto.
  - intros [v Hv]. exists (k, v). split; [reflexivity|].
    apply elem_of_map_to_list. exact Hv.
Qed.

(** [cleanup_missing_tracks] never raises, and keeps exactly the recorded
    ids that are in the active set. *)
Lemma cleanup_spec self (ids : gset Z) :
  exists self',
    cleanup_missing_tracks self ids = Some self' /\
    (forall k, track_start_frames self' !! k =
               if decide (k ∈ ids) then track_start_frames self !! k else None) /\
    current_frame self' = current_frame self /\
    frame_threshold self' = frame_threshold self /\
    loitering_threshold self' = loitering_threshold self.
Proof.
  unfold cleanup_missing_tracks.
  set (rm := List.filter _ _).
  assert (Hrm : forall k, k ∈ rm <->
            is_Some (track_start_frames self !! k) /\ k ∉ ids).
  { intros k. unfold rm. rewrite list_elem_of_In, filter_In.
    rewrite <- list_elem_of_In, keys_elem, negb_true_iff, bool_decide_eq_false.
    reflexivity. }
  destruct (delete_ids_spec rm (track_start_frames self)) as (d' & Hd' & Hl).
  { unfold rm. apply NoDup_ListNoDup, List.NoDup_filter, NoDup_ListNoDup, keys_NoDup. }
  { intros k Hk. apply Hrm in Hk. tauto. }
  rewrite Hd'. eexists. split; [reflexivity|]. simpl.
  repeat split. intros k. rewrite Hl.
  destruct (decide (k ∈ ids)) as [Hin|Hout].
  - rewrite decide_False by (rewrite Hrm; tauto). reflexivity.
  - destruct (track_start_frames self !! k) as [v|] eqn:Hk.
    + rewrite decide_True; [reflexivity|]. apply Hrm. rewrite Hk. eauto.
    + destruct (decide (k ∈ rm)); reflexivity.
Qed.

End LoiteringFacts.

Section LoiteringRuns.
Import Loitering.

(** Every call returns; none of them touches the thresholds, and the frame
    counter never decreases. *)
Lemma call_total self c :
  exists self',
    call self c = Some self' /\
    frame_threshold self' = frame_threshold self /\
    current_frame self <= current_frame self'.
Proof.
  destruct c as [|k|k|ids]; simpl.
  - eexists. split; [reflexivity|]. simpl. split; [reflexivity | lia].
  - eexists. split; [reflexivity|]. unfold update_track.
    destruct (negb _); simpl; split; (reflexivity || lia).
  - eexists. split; [reflexivity|].
    destruct (track_start_frames self !! k) as [s|] eqn:Hk.
    + rewrite (is_loitering_known _ _ _ Hk). simpl. split; (reflexivity || lia).
    + rewrite (is_loitering_unknown _ _ Hk). simpl. split; (reflexivity || lia).
  - destruct (cleanup_spec self ids) as (self' & -> & _ & Hc & Hf & _).
    exists self'. split; [reflexivity|]. split; [exact Hf | lia].
Qed.

(** A call that keeps [track_id] leaves its recorded start frame alone. *)
Lemma call_keeps_start self c track_id start :
  keeps track_id c ->
  track_start_frames self !! track_id = Some start ->
  forall self', call self c = Some self' ->
    track_start_frames self' !! track_id = Some start.
Proof.
  intros Hkeep Hs self' Hcall. destruct c as [|k|k|ids]; simpl in *.
  - inversion Hcall; subst. exact Hs.
  - inversion Hcall; subst. clear Hcall.
    destruct (track_start_frames self !! k) as [s|] eqn:Hk.
    + rewrite (update_track_known _ _ _ Hk). exact Hs.
    + rewrite (update_track_unknown _ _ Hk). simpl.
      rewrite lookup_insert_ne; [exact Hs | congruence].
  - inversion Hcall; subst. clear Hcall.
    destruct (track_start_frames self !! k) as [s|] eqn:Hk.
    + rewrite (is_loitering_known _ _ _ Hk). exact Hs.
    + rewrite (is_loitering_unknown _ _ Hk). exact Hs.
  - destruct (cleanup_spec self ids) as (s' & Hs' & Hl & _).
    rewrite Hs' in Hcall. inversion Hcall; subst.
    rewrite Hl, decide_True by exact Hkeep. exact Hs.
Qed.

Lemma run_total cs :
  forall self,
    exists self',
      run cs self = Some self' /\
      frame_threshold self' = frame_threshold self /\
      current_frame self <= current_frame self'.
Proof.
  induction cs as [|c cs IH]; intros self; simpl.
  - exists self. split; [reflexivity|]. split; [reflexivity | lia].
  - destruct (call_total self c) as (s1 & -> & Ht1 & Hc1).
    destruct (IH s1) as (s2 & Hr & Ht2 & Hc2).
    exists s2. split; [exact Hr|]. split; [congruence | lia].
Qed.

Lemma run_keeps_start cs track_id start :
  Forall (keeps track_id) cs ->
  forall self self',
    track_start_frames self !! track_id = Some start ->
    run cs self = Some self' ->
    track_start_frames self' !! track_id = Some start.
Proof.
  induction 1 as [|c cs Hc _ IH]; intros self self' Hs Hrun; simpl in Hrun.
  - inversion Hrun; subst. exact Hs.
  - destruct (call self c) as [s1|] eqn:Hcall; [|discriminate].
    apply (IH s1 self'); [|exact Hrun].
    exact (call_keeps_start _ _ _ _ Hc Hs _ Hcall).
Qed.

Lemma run_init_threshold lt fps cs self :
  run cs (init lt fps) = Some self ->
  frame_threshold self = Binary64.float_mul lt fps.
Proof.
  intros Hrun. destruct (run_total cs (init lt fps)) as (s & Hs & Ht & _).
  rewrite Hs in Hrun. inversion Hrun; subst. exact Ht.
Qed.

(** C3: on any manager built by [__init__] and then driven by any calls,
    [is_loitering] answers true exactly when the id has a recorded start
    frame and [current_frame - start_frame > loitering_threshold * fps],
    the product being the float product that [__init__] computes; for an
    id without a recorded start frame it answers false. *)
Theorem is_loitering_iff (lt fps : Q) (cs : list Call)
    (self : LoiteringDetectionManager) (track_id : Z) :
  run cs (init lt fps) = Some self ->
  (fst (is_loitering self track_id) = true <->
     exists start,
       track_start_frames self !! track_id = Some start /\
       (Binary64.float_mul lt fps
          < inject_Z (current_frame self - start))%Q)
  /\ (track_start_frames self !! track_id = None ->
      fst (is_loitering self track_id) = false).
Proof.
  intros Hrun. pose proof (run_init_threshold _ _ _ _ Hrun) as Ht.
  split.
  - destruct (track_start_frames self !! track_id) as [s|] eqn:Hk.
    + rewrite (is_loitering_known _ _ _ Hk). simpl. rewrite Ht, Qltb_lt.
      split.
      * intros H. exists s. split; [reflexivity | exact H].
      * intros (s' & Heq & H). inversion Heq; subst. exact H.
    + rewrite (is_loitering_unknown _ _ Hk). simpl. split.
      * discriminate.
      * intros (s' & Heq & _). discriminate.
  - intros Hk. rewrite (is_loitering_unknown _ _ Hk). reflexivity.
Qed.

(** A threshold of 3.3 seconds at 10 fps: a track first seen at frame 0,
    at frame 34. *)
Lemma is_loitering_iff_witness :
  let self := Manager (Binary64.float_lit (33 # 10)) 33 {[ 7 := 0 ]} 34 in
  (fst (is_loitering self 7) = true <->
     exists start,
       track_start_frames self !! 7 = Some start /\
       (Binary64.float_mul (Binary64.float_lit (33 # 10)) 10
          < inject_Z (current_frame self - start))%Q)
  /\ (track_start_frames self !! 7 = None ->
      fst (is_loitering self 7) = false).
Proof.
  apply (is_loitering_iff (Binary64.float_lit (33 # 10)) 10
           ([CallUpdateTrack 7] ++ repeat CallUpdateFrameCount 34)).
  vm_compute. reflexivity.
Defined.

(** The float product at the boundary frame.  [3.3 * 10.0] is [33.0], so
    a track is not loitering after 33 frames and is after 34, although the
    float [3.3] is below 33/10; [0.57 * 100.0] is below 57, so a track is
    loitering after 57 frames. *)
Example is_loitering_float_boundary :
  frame_threshold (init (Binary64.float_lit (33 # 10)) 10) = 33%Q /\
  (Binary64.float_lit (33 # 10) * 10 < 33)%Q /\
  run ([CallUpdateTrack 7] ++ repeat CallUpdateFrameCount 33)
      (init (Binary64.float_lit (33 # 10)) 10)
    = Some (Manager (Binary64.float_lit (33 # 10)) 33 {[ 7 := 0 ]} 33) /\
  fst (is_loitering
         (Manager (Binary64.float_lit (33 # 10)) 33 {[ 7 := 0 ]} 33) 7)
    = false /\
  fst (is_loitering
         (Manager (Binary64.float_lit (33 # 10)) 33 {[ 7 := 0 ]} 34) 7)
    = true /\
  (frame_threshold (init (Binary64.float_lit (57 # 100)) 100) < 57)%Q /\
  run ([CallUpdateTrack 7] ++ repeat CallUpdateFrameCount 57)
      (init (Binary64.float_lit (57 # 100)) 100)
    = Some (Manager (Binary64.float_lit (57 # 100))
              (Binary64.float_mul (Binary64.float_lit (57 # 100)) 100)
              {[ 7 := 0 ]} 57) /\
  fst (is_loitering
         (Manager (Binary64.float_lit (57 # 100))
            (Binary64.float_mul (Binary64.float_lit (57 # 100)) 100)
            {[ 7 := 0 ]} 57) 7)
    = true.
Proof. repeat split; vm_compute; reflexivity. Qed.

(** The same track one frame earlier, at frame 15, is not yet loitering:
    10 elapsed frames do not exceed a threshold of 10. *)
Example is_loitering_scenario :
  fst (is_loitering (Manager 1 (1 * 10) {[ 7 := 5 ]} 15) 7) = false /\
  fst (is_loitering (Manager 1 (1 * 10) {[ 7 := 5 ]} 16) 7) = true.
Proof. split; vm_compute; reflexivity. Qed.

(** C10: [is_loitering] is a pure query: the manager after the call is the
    manager before it, also for an id that was never recorded. *)
Theorem is_loitering_pure (self : LoiteringDetectionManager) (track_id : Z) :
  snd (is_loitering self track_id) = self.
Proof.
  destruct (track_start_frames self !! track_id) as [s|] eqn:Hk.
  - rewrite (is_loitering_known _ _ _ Hk). reflexivity.
  - rewrite (is_loitering_unknown _ _ Hk). reflexivity.
Qed.

(** C7: once an id has a recorded start frame, [update_track] changes
    nothing, and the recorded start frame survives every run of calls whose
    cleanups keep the id. *)
Theorem update_track_idempotent (self : LoiteringDetectionManager)
    (track_id start : Z) :
  track_start_frames self !! track_id = Some start ->
  update_track self track_id = self /\
  forall cs, Forall (keeps track_id) cs ->
    exists self',
      run cs self = Some self' /\
      track_start_frames self' !! track_id = Some start.
Proof.
  intros Hs. split; [exact (update_track_known _ _ _ Hs)|].
  intros cs Hcs. destruct (run_total cs self) as (s' & Hrun & _).
  exists s'. split; [exact Hrun|].
  exact (run_keeps_start _ _ _ Hcs _ _ Hs Hrun).
Qed.

Lemma update_track_idempotent_witness :
  let self := Manager 1 (1 * 10) {[ 7 := 5 ]} 16 in
  update_track self 7 = self /\
  forall cs, Forall (keeps 7) cs ->
    exists self',
      run cs self = Some self' /\
      track_start_frames self' !! 7 = Some 5.
Proof.
  apply (update_track_idempotent (Manager 1 (1 * 10) {[ 7 := 5 ]} 16) 7 5).
  vm_compute. reflexivity.
Defined.

(** C8: right after the first [update_track] of an id, [is_loitering] is
    false when the frame threshold is not negative; and once [is_loitering]
    is true it stays true over every run of calls whose cleanups keep the
    id. *)
Theorem is_loitering_fresh_then_monotone (self : LoiteringDetectionManager)
    (track_id : Z) :
  (track_start_frames self !! track_id = None ->
   (0 <= frame_threshold self)%Q ->
   fst (is_loitering (update_track self track_id) track_id) = false)
  /\
  (forall cs, Forall (keeps track_id) cs ->
     fst (is_loitering self track_id) = true ->
     exists self',
       run cs self = Some self' /\
       fst (is_loitering self' track_id) = true).
Proof.
  split.
  - intros Hk Hnn. rewrite (update_track_unknown _ _ Hk).
    erewrite is_loitering_known; [|simpl; apply lookup_insert_eq].
    simpl. rewrite Z.sub_diag. apply Qltb_ge. exact Hnn.
  - intros cs Hcs Htrue.
    destruct (run_total cs self) as (s' & Hrun & Ht & Hc).
    exists s'. split; [exact Hrun|].
    destruct (track_start_frames self !! track_id) as [s|] eqn:Hk.
    + pose proof (run_keeps_start _ _ _ Hcs _ _ Hk Hrun) as Hk'.
      rewrite (is_loitering_known _ _ _ Hk) in Htrue.
      rewrite (is_loitering_known _ _ _ Hk'). simpl in *.
      rewrite Qltb_lt in *. rewrite Ht.
      eapply Qlt_le_trans; [exact Htrue|].
      rewrite <- Zle_Qle. lia.
    + rewrite (is_loitering_unknown _ _ Hk) in Htrue. discriminate.
Qed.

Lemma is_loitering_fresh_then_monotone_witness :
  fst (is_loitering (update_track (init 1 10) 7) 7) = false /\
  exists self',
    run [CallUpdateFrameCount; CallUpdateTrack 7; CallIsLoitering 7;
         CallCleanup {[ 7 ]}] (Manager 1 (1 * 10) {[ 7 := 5 ]} 16)
      = Some self' /\
    fst (is_loitering self' 7) = true.
Proof.
  split.
  - apply (proj1 (is_loitering_fresh_then_monotone (init 1 10) 7)).
    + reflexivity.
    + vm_compute. discriminate.
  - apply (proj2 (is_loitering_fresh_then_monotone
                    (Manager 1 (1 * 10) {[ 7 := 5 ]} 16) 7)).
    + repeat constructor.
    + vm_compute. reflexivity.
Defined.

(** C6: [cleanup_missing_tracks] returns; afterwards an id is recorded
    exactly when it was recorded and is in the active set, with the start
    frame it had; the frame counter and the thresholds are unchanged; and
    an id outside the active set, observed again after [n] more frames,
    gets the frame counter of that moment as its start frame. *)
Theorem cleanup_removes_exactly (self : LoiteringDetectionManager)
    (ids : gset Z) :
  exists self',
    cleanup_missing_tracks self ids = Some self' /\
    (forall k, track_start_frames self' !! k =
               if decide (k ∈ ids) then track_start_frames self !! k else None) /\
    current_frame self' = current_frame self /\
    frame_threshold self' = frame_threshold self /\
    loitering_threshold self' = loitering_threshold self /\
    (forall k n, k ∉ ids ->
       track_start_frames
         (update_track (Nat.iter n update_frame_count self') k) !! k
       = Some (current_frame self + Z.of_nat n)).
Proof.
  destruct (cleanup_spec self ids) as (s' & Hs' & Hl & Hc & Ht & Hlt).
  exists s'. repeat (split; [assumption|]).
  intros k n Hk.
  assert (Hiter : forall n,
            track_start_frames (Nat.iter n update_frame_count s')
              = track_start_frames s' /\
            current_frame (Nat.iter n update_frame_count s')
              = current_frame s' + Z.of_nat n).
  { clear. induction n as [|n [IH1 IH2]]; simpl.
    - split; [reflexivity | lia].
    - split; [exact IH1 | lia]. }
  destruct (Hiter n) as [H1 H2].
  rewrite update_track_unknown.
  - simpl. rewrite lookup_insert_eq, H2, Hc. reflexivity.
  - rewrite H1, Hl, decide_False by exact Hk. reflexivity.
Qed.

Lemma cleanup_removes_exactly_witness :
  exists self',
    cleanup_missing_tracks
      (Manager 1 (1 * 10) {[ 7 := 5; 8 := 6 ]} 16) {[ 7 ]} = Some self' /\
    track_start_frames
      (update_track (Nat.iter 3 update_frame_count self') 8) !! 8
    = Some (16 + Z.of_nat 3).
Proof.
  destruct (cleanup_removes_exactly
              (Manager 1 (1 * 10) {[ 7 := 5; 8 := 6 ]} 16) {[ 7 ]})
    as (s' & Hs' & _ & _ & _ & _ & Hre).
  exists s'. split; [exact Hs'|].
  apply (Hre 8 3%nat). rewrite elem_of_singleton. lia.
Defined.

End LoiteringRuns.

(** ** Geometry *)

Section GeometryFacts.
Import Geometry.

Lemma pymax_cases (a b : Q) :
  ((a < b)%Q /\ pymax a b = b) \/ ((b <= a)%Q /\ pymax a b = a).
Proof.
  unfold pymax. destruct (Qltb a b) eqn:H.
  - left. split; [apply Qltb_lt; exact H | reflexivity].
  - right. split; [apply Qltb_ge; exact H | reflexivity].
Qed.

Lemma pymin_cases (a b : Q) :
  ((b < a)%Q /\ pymin a b = b) \/ ((a <= b)%Q /\ pymin a b = a).
Proof.
  unfold pymin. destruct (Qltb b a) eqn:H.
  - left. split; [apply Qltb_lt; exact H | reflexivity].
  - right. split; [apply Qltb_ge; exact H | reflexivity].
Qed.

Lemma eps_pos : (0 < eps)%Q.
Proof. reflexivity. Qed.

Lemma floored_area_ge (box : Box) :
  (eps <= floored_area box)%Q /\ (raw_area box <= floored_area box)%Q.
Proof.
  unfold floored_area.
  destruct (pymax_cases eps (raw_area box)) as [[H ->]|[H ->]]; lra.
Qed.

(** The clamped overlap along one axis: it is 0, or positive and no larger
    than either extent. *)
Lemma clamp_cases (lo1 lo2 hi1 hi2 : Q) :
  let d := pymax 0 (pymin hi1 hi2 - pymax lo1 lo2) in
  ((pymin hi1 hi2 - pymax lo1 lo2 <= 0)%Q /\ d = 0%Q) \/
  ((0 < d)%Q /\ (d <= hi1 - lo1)%Q /\ (d <= hi2 - lo2)%Q /\
   d = (pymin hi1 hi2 - pymax lo1 lo2)%Q).
Proof.
  intros d. unfold d.
  destruct (pymax_cases 0 (pymin hi1 hi2 - pymax lo1 lo2)) as [[H ->]|[H ->]].
  - right.
    destruct (pymin_cases hi1 hi2) as [[? Hm]|[? Hm]];
      destruct (pymax_cases lo1 lo2) as [[? HM]|[? HM]];
      rewrite Hm, HM in *; repeat split; lra.
  - left. split; [exact H | reflexivity].
Qed.

Lemma Qmult_le_mono (a b c d : Q) :
  (0 <= a)%Q -> (a <= b)%Q -> (0 <= c)%Q -> (c <= d)%Q -> (a * c <= b * d)%Q.
Proof.
  intros Ha Hab Hc Hcd.
  apply Qle_trans with (b * c)%Q.
  - apply Qmult_le_compat_r; assumption.
  - rewrite (Qmult_comm b c), (Qmult_comm b d).
    apply Qmult_le_compat_r; [assumption | lra].
Qed.

(** The intersection is 0 as soon as one axis has no positive overlap;
    otherwise it is positive and bounded by the raw area of each box. *)
Lemma intersection_cases (boxA boxB : Box) :
  (((overlap_x boxA boxB <= 0)%Q \/ (overlap_y boxA boxB <= 0)%Q) /\
   (intersection boxA boxB == 0)%Q) \/
  ((0 < overlap_x boxA boxB)%Q /\ (0 < overlap_y boxA boxB)%Q /\
   (intersection boxA boxB == overlap_x boxA boxB * overlap_y boxA boxB)%Q /\
   (0 < intersection boxA boxB)%Q /\
   (intersection boxA boxB <= raw_area boxA)%Q /\
   (intersection boxA boxB <= raw_area boxB)%Q).
Proof.
  unfold intersection, raw_area, overlap_x, overlap_y.
  destruct (clamp_cases (c0 boxA) (c0 boxB) (c2 boxA) (c2 boxB))
    as [[Hx ->]|(Hx & HxA & HxB & Ex)].
  - left. split; [left; exact Hx | ring].
  - destruct (clamp_cases (c1 boxA) (c1 boxB) (c3 boxA) (c3 boxB))
      as [[Hy ->]|(Hy & HyA & HyB & Ey)].
    + left. split; [right; exact Hy | ring].
    + right. rewrite Ex in Hx, HxA, HxB |- *. rewrite Ey in Hy, HyA, HyB |- *.
      split; [exact Hx|]. split; [exact Hy|]. split; [reflexivity|].
      split; [apply Qmult_lt_0_compat; assumption|].
      split; apply Qmult_le_mono; lra.
Qed.

Lemma intersection_nonneg (boxA boxB : Box) : (0 <= intersection boxA boxB)%Q.
Proof.
  destruct (intersection_cases boxA boxB) as [[_ H]|(_ & _ & _ & H & _)]; lra.
Qed.

Lemma intersection_le_area (boxA boxB : Box) :
  (intersection boxA boxB <= floored_area boxA)%Q /\
  (intersection boxA boxB <= floored_area boxB)%Q.
Proof.
  pose proof (floored_area_ge boxA) as [? ?].
  pose proof (floored_area_ge boxB) as [? ?].
  pose proof eps_pos.
  destruct (intersection_cases boxA boxB)
    as [[_ Hz]|(_ & _ & _ & _ & HA & HB)]; split; lra.
Qed.

(** The divisor is never below [2 * 1e-5], so the division never fails. *)
Lemma denominator_ge (boxA boxB : Box) :
  (intersection boxA boxB + eps <= denominator boxA boxB)%Q /\
  (eps + eps <= denominator boxA boxB)%Q.
Proof.
  unfold denominator.
  pose proof (floored_area_ge boxA) as [? ?].
  pose proof (floored_area_ge boxB) as [? ?].
  pose proof (intersection_le_area boxA boxB) as [? ?].
  split; lra.
Qed.

Lemma compute_iou_range (boxA boxB : Box) :
  (0 <= compute_iou boxA boxB)%Q /\ (compute_iou boxA boxB < 1)%Q.
Proof.
  unfold compute_iou.
  pose proof (denominator_ge boxA boxB) as [Hd1 Hd2].
  pose proof (intersection_nonneg boxA boxB) as Hi.
  pose proof eps_pos as He.
  assert (Hpos : (0 < denominator boxA boxB)%Q) by lra.
  split.
  - apply Qle_shift_div_l; [exact Hpos | lra].
  - apply Qlt_shift_div_r; [exact Hpos | lra].
Qed.

Lemma compute_iou_zero (boxA boxB : Box) :
  (intersection boxA boxB == 0)%Q -> (compute_iou boxA boxB == 0)%Q.
Proof.
  intros H. unfold compute_iou. rewrite H. unfold Qdiv. ring.
Qed.


End GeometryFacts.

Section SelfIoU.
Import Geometry.

Lemma pymax_same (a : Q) : pymax a a = a.
Proof. unfold pymax. destruct (Qltb a a); reflexivity. Qed.

Lemma pymin_same (a : Q) : pymin a a = a.
Proof. unfold pymin. destruct (Qltb a a); reflexivity. Qed.

Lemma self_intersection (box : Box) :
  non_degenerate box -> (intersection box box == raw_area box)%Q.
Proof.
  intros [Hx Hy]. unfold intersection, raw_area.
  rewrite !pymax_same, !pymin_same.
  destruct (pymax_cases 0 (c2 box - c0 box)) as [[_ ->]|[? _]]; [|lra].
  destruct (pymax_cases 0 (c3 box - c1 box)) as [[_ ->]|[? _]]; [|lra].
  reflexivity.
Qed.

Lemma self_iou_value (box : Box) :
  non_degenerate box -> (eps <= raw_area box)%Q ->
  (compute_iou box box == raw_area box / (raw_area box + eps))%Q.
Proof.
  intros Hnd Ha. unfold compute_iou, denominator.
  assert (Hf : (floored_area box == raw_area box)%Q).
  { unfold floored_area.
    destruct (pymax_cases eps (raw_area box)) as [[_ ->]|[? ->]];
      [reflexivity | lra]. }
  rewrite (self_intersection box Hnd), Hf.
  apply Qdiv_comp; [reflexivity | ring].
Qed.

(** C9 (amended): in exact arithmetic [compute_iou] lies in [0, 1]; each
    area is floored at [1e-5] and the divisor is at least [1e-5]; without a
    positive overlap on both axes the result is 0; and for a box of area
    [a >= 1e-5] with positive extents the self IoU is [a / (a + 1e-5)],
    hence at least [1 - 1e-5] once [a >= 1]. *)
Theorem compute_iou_bounds (boxA boxB : Box) :
  ((0 <= compute_iou boxA boxB)%Q /\ (compute_iou boxA boxB <= 1)%Q) /\
  (eps <= floored_area boxA)%Q /\
  (eps <= floored_area boxB)%Q /\
  (eps <= denominator boxA boxB)%Q /\
  ((overlap_x boxA boxB <= 0)%Q \/ (overlap_y boxA boxB <= 0)%Q ->
   (compute_iou boxA boxB == 0)%Q) /\
  (non_degenerate boxA -> (eps <= raw_area boxA)%Q ->
   (compute_iou boxA boxA == raw_area boxA / (raw_area boxA + eps))%Q) /\
  (non_degenerate boxA -> (1 <= raw_area boxA)%Q ->
   (1 - eps <= compute_iou boxA boxA)%Q).
Proof.
  pose proof eps_pos as He.
  split; [|split; [|split; [|split; [|split; [|split]]]]].
  - pose proof (compute_iou_range boxA boxB) as [? ?]. split; lra.
  - apply floored_area_ge.
  - apply floored_area_ge.
  - pose proof (denominator_ge boxA boxB) as [_ ?]. lra.
  - intros Hno. apply compute_iou_zero.
    destruct (intersection_cases boxA boxB) as [[_ H]|(Hx & Hy & _)];
      [exact H | destruct Hno; lra].
  - apply self_iou_value.
  - intros Hnd Ha.
    assert (He1 : (eps <= 1)%Q) by (unfold eps, Qle; simpl; lia).
    rewrite (self_iou_value boxA Hnd) by lra.
    apply Qle_shift_div_l; [lra|].
    assert (0 <= eps * eps)%Q by (unfold eps, Qle; simpl; lia).
    assert (eps * 1 <= eps * raw_area boxA)%Q.
    { rewrite !(Qmult_comm eps). apply Qmult_le_compat_r; lra. }
    lra.
Qed.

Lemma compute_iou_bounds_witness :
  (compute_iou (mkBox 0 0 2 2) (mkBox 2 0 4 2) == 0)%Q /\
  (compute_iou (mkBox 0 0 2 2) (mkBox 0 0 2 2) == 4 / (4 + eps))%Q /\
  (1 - eps <= compute_iou (mkBox 0 0 2 2) (mkBox 0 0 2 2))%Q.
Proof.
  split; [|split].
  - apply (compute_iou_bounds (mkBox 0 0 2 2) (mkBox 2 0 4 2)).
    left. vm_compute. discriminate.
  - apply (compute_iou_bounds (mkBox 0 0 2 2) (mkBox 0 0 2 2)).
    + split; reflexivity.
    + vm_compute. discriminate.
  - apply (compute_iou_bounds (mkBox 0 0 2 2) (mkBox 0 0 2 2)).
    + split; reflexivity.
    + vm_compute. discriminate.
Defined.

(** C9 as stated fails: a box of one thousandth by one hundredth has
    positive extents and area [1e-5], and its IoU with itself is one
    half. *)
Lemma self_iou_tiny_box_is_half :
  non_degenerate tiny_box /\
  (compute_iou tiny_box tiny_box == 1 # 2)%Q /\
  ~ (9 # 10 <= compute_iou tiny_box tiny_box)%Q.
Proof.
  split; [split; reflexivity|]. split.
  - vm_compute. reflexivity.
  - vm_compute. intros H. apply H. reflexivity.
Qed.

End SelfIoU.

(** ** The track matcher *)

Section MatcherFacts.
Import Geometry.

Lemma iou_at_snoc_old (t : Box) (seen : list Box) (d : Box) j q :
  iou_at t seen j = Some q -> iou_at t (seen ++ [d]) j = Some q.
Proof.
  unfold iou_at. intros H.
  destruct (seen !! j) as [b|] eqn:Hj; [|discriminate].
  rewrite (lookup_app_l_Some _ _ _ _ Hj). exact H.
Qed.

Lemma iou_at_snoc_inv (t : Box) (seen : list Box) (d : Box) j q :
  iou_at t (seen ++ [d]) j = Some q ->
  ((j < length seen)%nat /\ iou_at t seen j = Some q) \/
  (j = length seen /\ q = compute_iou t d).
Proof.
  unfold iou_at. intros H.
  destruct (decide (j < length seen)%nat) as [Hlt|Hge].
  - left. split; [exact Hlt|]. rewrite lookup_app_l in H by exact Hlt. exact H.
  - right. rewrite lookup_app_r in H by lia.
    destruct (j - length seen)%nat as [|n] eqn:Hn; simpl in H.
    + inversion H. split; [lia | reflexivity].
    + discriminate.
Qed.

Lemma iou_at_snoc_new (t : Box) (seen : list Box) (d : Box) :
  iou_at t (seen ++ [d]) (length seen) = Some (compute_iou t d).
Proof.
  unfold iou_at. rewrite lookup_app_r by lia.
  rewrite Nat.sub_diag. reflexivity.
Qed.

(** An index is never the sentinel [-1]. *)
Lemma index_not_sentinel (i : nat) : (Z.of_nat i =? -1) = false.
Proof. apply Z.eqb_neq. lia. Qed.

Lemma iou_at_lt (t : Box) (seen : list Box) j q :
  iou_at t seen j = Some q -> (j < length seen)%nat.
Proof.
  unfold iou_at. intros H.
  destruct (seen !! j) as [b|] eqn:Hj; [|discriminate].
  exact (lookup_lt_Some _ _ _ Hj).
Qed.

(** One iteration keeps the invariant. *)
Lemma best_so_far_step (t : Box) (seen : list Box) (d : Box)
    (best_iou : Q) (best_idx : Z) :
  best_so_far t seen best_iou best_idx ->
  let iou := compute_iou t d in
  if Qltb best_iou iou
  then best_so_far t (seen ++ [d]) iou (Z.of_nat (length seen))
  else best_so_far t (seen ++ [d]) best_iou best_idx.
Proof.
  intros Hinv iou. destruct (Qltb best_iou iou) eqn:Hcmp.
  - apply Qltb_lt in Hcmp. right. exists (length seen).
    split; [reflexivity|]. split; [apply iou_at_snoc_new|].
    assert (Hold : forall j q, iou_at t seen j = Some q -> (q < iou)%Q).
    { intros j q Hj. destruct Hinv as [(_ & H0 & Hle)|(i & _ & _ & _ & Hle & _)];
        specialize (Hle j q Hj); lra. }
    split; [|split].
    + destruct Hinv as [(_ & H0 & _)|(i & _ & _ & Hpos & _)]; lra.
    + intros j q Hj. apply iou_at_snoc_inv in Hj as [[_ Hj]|[_ ->]].
      * apply Qlt_le_weak. exact (Hold j q Hj).
      * apply Qle_refl.
    + intros j q Hlt Hj. apply iou_at_snoc_inv in Hj as [[_ Hj]|[Hj _]].
      * exact (Hold j q Hj).
      * lia.
  - apply Qltb_ge in Hcmp.
    destruct Hinv as [(Hidx & H0 & Hle)|(i & Hidx & Hi & Hpos & Hle & Hfirst)].
    + left. split; [exact Hidx|]. split; [exact H0|].
      intros j q Hj. apply iou_at_snoc_inv in Hj as [[_ Hj]|[_ ->]].
      * exact (Hle j q Hj).
      * fold iou. lra.
    + right. exists i. split; [exact Hidx|].
      split; [apply iou_at_snoc_old; exact Hi|]. split; [exact Hpos|]. split.
      * intros j q Hj. apply iou_at_snoc_inv in Hj as [[_ Hj]|[_ ->]].
        -- exact (Hle j q Hj).
        -- exact Hcmp.
      * intros j q Hlt Hj. apply iou_at_snoc_inv in Hj as [[_ Hj]|[Hj _]].
        -- exact (Hfirst j q Hlt Hj).
        -- pose proof (iou_at_lt _ _ _ _ Hi). lia.
Qed.

(** The loop, started after [seen] with the invariant, ends with it. *)
Lemma best_match_loop_inv (t : Box) (rest : list Box) :
  forall (seen : list Box) (best_iou : Q) (best_idx : Z),
    best_so_far t seen best_iou best_idx ->
    best_so_far t (seen ++ rest)
      (fst (best_match_loop t rest (Z.of_nat (length seen)) best_iou best_idx))
      (snd (best_match_loop t rest (Z.of_nat (length seen)) best_iou best_idx)).
Proof.
  induction rest as [|d rest IH]; intros seen best_iou best_idx Hinv; simpl.
  - rewrite app_nil_r. exact Hinv.
  - pose proof (best_so_far_step t seen d best_iou best_idx Hinv) as Hstep.
    simpl in Hstep.
    assert (Hlen : Z.of_nat (length seen) + 1 = Z.of_nat (length (seen ++ [d])))
      by (rewrite length_app; simpl; lia).
    rewrite Hlen, (cons_middle d seen rest), app_assoc.
    destruct (Qltb best_iou (compute_iou t d)); apply IH; exact Hstep.
Qed.

Lemma best_match_final (t : Box) (dets : list Box) :
  best_so_far t dets
    (fst (best_match_loop t dets 0 0 (-1)))
    (snd (best_match_loop t dets 0 0 (-1))).
Proof.
  apply (best_match_loop_inv t dets [] 0%Q (-1)).
  left. split; [reflexivity|]. split; [reflexivity|].
  intros j q H. unfold iou_at in H. rewrite lookup_nil in H. discriminate.
Qed.

(** C2: [find_best_matching_detection_index] returns no match exactly when
    the IoU with every detection is 0 (so always on an empty list);
    otherwise it returns the lowest index whose IoU is the largest one, and
    that IoU is positive. *)
Theorem find_best_matching_spec (track_box : Box) (detection_boxes : list Box) :
  (find_best_matching_detection_index track_box detection_boxes = None <->
   forall j q, iou_at track_box detection_boxes j = Some q -> (q == 0)%Q)
  /\
  (forall idx,
     find_best_matching_detection_index track_box detection_boxes = Some idx ->
     exists (i : nat) (best : Q),
       idx = Z.of_nat i /\
       iou_at track_box detection_boxes i = Some best /\
       (0 < best)%Q /\
       (forall j q, iou_at track_box detection_boxes j = Some q ->
                    (q <= best)%Q) /\
       (forall j q, (j < i)%nat ->
                    iou_at track_box detection_boxes j = Some q ->
                    (q < best)%Q))
  /\
  (detection_boxes = [] ->
   find_best_matching_detection_index track_box detection_boxes = None).
Proof.
  pose proof (best_match_final track_box detection_boxes) as Hinv.
  unfold find_best_matching_detection_index.
  set (r := best_match_loop track_box detection_boxes 0 0 (-1)) in *.
  assert (Hnonneg : forall j q,
            iou_at track_box detection_boxes j = Some q -> (0 <= q)%Q).
  { intros j q H. unfold iou_at in H.
    destruct (detection_boxes !! j) as [b|]; [|discriminate].
    inversion H. apply compute_iou_range. }
  split; [|split].
  - destruct Hinv as [(Hidx & _ & Hle)|(i & Hidx & Hi & Hpos & _)].
    + rewrite Hidx. simpl. split; [|reflexivity].
      intros _ j q Hj. pose proof (Hle j q Hj). pose proof (Hnonneg j q Hj).
      apply Qle_antisym; assumption.
    + rewrite Hidx, index_not_sentinel.
      split; [discriminate|].
      intros Hall. specialize (Hall i _ Hi). lra.
  - intros idx Hres.
    destruct Hinv as [(Hidx & _)|(i & Hidx & Hrest)].
    + rewrite Hidx in Hres. discriminate.
    + rewrite Hidx, index_not_sentinel in Hres.
      inversion Hres. exists i, (fst r). split; [reflexivity | exact Hrest].
  - intros ->. reflexivity.
Qed.

Lemma find_best_matching_spec_witness :
  let t := mkBox 0 0 4 4 in
  let dets := [mkBox 10 10 12 12; mkBox 0 0 4 2; mkBox 0 2 4 4] in
  exists (i : nat) (best : Q),
    1 = Z.of_nat i /\
    iou_at t dets i = Some best /\
    (0 < best)%Q /\
    (forall j q, iou_at t dets j = Some q -> (q <= best)%Q) /\
    (forall j q, (j < i)%nat -> iou_at t dets j = Some q -> (q < best)%Q).
Proof.
  intros t dets.
  apply (proj1 (proj2 (find_best_matching_spec t dets)) 1).
  vm_compute. reflexivity.
Defined.

End MatcherFacts.

(** ** The detection selector *)

Section SelectorFacts.
Import Geometry Selector.

Lemma target_indices_from_elem (tc : gset string) (labels : list string) :
  forall (idx0 idx : Z),
    idx ∈ target_indices_from tc labels idx0 <->
    exists (i : nat) (label : string),
      idx = idx0 + Z.of_nat i /\ labels !! i = Some label /\ label ∈ tc.
Proof.
  induction labels as [|l labels IH]; intros idx0 idx; simpl.
  - split.
    + intros H. apply not_elem_of_empty in H. contradiction.
    + intros (i & label & _ & H & _). rewrite lookup_nil in H. discriminate.
  - rewrite elem_of_union, IH. split.
    + intros [H|(i & label & -> & Hl & Ht)].
      * destruct (bool_decide (l ∈ tc)) eqn:Hb.
        -- apply elem_of_singleton in H. subst.
           exists 0%nat, l. split; [lia|]. split; [reflexivity|].
           apply bool_decide_eq_true in Hb. exact Hb.
        -- apply not_elem_of_empty in H. contradiction.
      * exists (S i), label. split; [lia|]. split; assumption.
    + intros (i & label & -> & Hl & Ht). destruct i as [|i]; simpl in Hl.
      * left. inversion Hl; subst.
        rewrite bool_decide_eq_true_2 by exact Ht.
        apply elem_of_singleton. lia.
      * right. exists i, label. split; [lia|]. split; assumption.
Qed.

(** The target indices are the positions of the labels that are target
    labels. *)
Lemma target_class_indices_elem (labels : list string)
    (target_labels : option (list string)) (idx : Z) :
  idx ∈ target_class_indices labels target_labels <->
  exists (i : nat) (label : string),
    idx = Z.of_nat i /\ labels !! i = Some label /\
    label ∈ default default_target_labels target_labels.
Proof.
  unfold target_class_indices. rewrite target_indices_from_elem.
  split; intros (i & label & Hi & Hl & Ht); exists i, label;
    (split; [lia|]); (split; [exact Hl|]).
  - apply elem_of_list_to_set in Ht. exact Ht.
  - apply elem_of_list_to_set. exact Ht.
Qed.

Lemma collect_class_admissible (thr : Q) (size pad h w class_id : Z)
    (P : Candidate -> Prop) (detection : list RawDetection) :
  (forall c, cand_class c = class_id -> (thr <= cand_score c)%Q -> P c) ->
  Forall P (collect_class thr size pad h w class_id detection).
Proof.
  intros HP. induction detection as [|det rest IH]; simpl.
  - constructor.
  - destruct (Qle_bool thr (det_score det)) eqn:Hs; [|exact IH].
    constructor; [|exact IH]. apply HP; [reflexivity|].
    simpl. apply Qle_bool_iff. exact Hs.
Qed.

Lemma collect_admissible (indices : gset Z) (thr : Q) (size pad h w : Z)
    (detections : list (list RawDetection)) :
  forall class_id,
    Forall (admissible indices thr)
      (collect indices thr size pad h w class_id detections).
Proof.
  induction detections as [|detection rest IH]; intros class_id; simpl.
  - constructor.
  - apply Forall_app. split; [|apply IH].
    destruct (bool_decide (class_id ∈ indices)) eqn:Hb; [|constructor].
    apply bool_decide_eq_true in Hb.
    apply collect_class_admissible. intros c Hc Hs. split; [|exact Hs].
    rewrite Hc. exact Hb.
Qed.

Lemma insert_desc_Forall (P : Candidate -> Prop) x l :
  P x -> Forall P l -> Forall P (insert_desc x l).
Proof.
  intros Hx Hl. induction Hl as [|y l Hy Hl IH]; simpl.
  - constructor; [exact Hx | constructor].
  - destruct (Qltb (cand_score x) (cand_score y)).
    + constructor; assumption.
    + constructor; [exact Hx|]. constructor; assumption.
Qed.

Lemma sort_desc_Forall (P : Candidate -> Prop) l :
  Forall P l -> Forall P (sort_desc l).
Proof.
  induction 1 as [|x l Hx Hl IH]; simpl; [constructor|].
  apply insert_desc_Forall; assumption.
Qed.

Lemma insert_desc_sorted x l :
  StronglySorted desc l -> StronglySorted desc (insert_desc x l).
Proof.
  induction 1 as [|y l Hs IH Hy]; simpl.
  - constructor; constructor.
  - destruct (Qltb (cand_score x) (cand_score y)) eqn:Hc.
    + apply Qltb_lt in Hc. constructor; [exact IH|].
      apply insert_desc_Forall; [|exact Hy].
      unfold desc. lra.
    + apply Qltb_ge in Hc. constructor; [constructor; assumption|].
      constructor; [exact Hc|].
      eapply Forall_impl; [exact Hy|].
      unfold desc. intros z Hz. lra.
Qed.

Lemma sort_desc_sorted l : StronglySorted desc (sort_desc l).
Proof.
  induction l as [|x l IH]; simpl; [constructor|].
  apply insert_desc_sorted. exact IH.
Qed.

Lemma insert_desc_length x l : length (insert_desc x l) = S (length l).
Proof.
  induction l as [|y l IH]; simpl; [reflexivity|].
  destruct (Qltb _ _); simpl; [rewrite IH|]; reflexivity.
Qed.

Lemma sort_desc_length l : length (sort_desc l) = length l.
Proof.
  induction l as [|x l IH]; simpl; [reflexivity|].
  rewrite insert_desc_length, IH. reflexivity.
Qed.

Lemma firstn_sorted {A : Type} (R : A -> A -> Prop) (l : list A) :
  StronglySorted R l -> forall n, StronglySorted R (firstn n l).
Proof.
  induction 1 as [|x l Hs IH Hx]; intros [|n]; simpl; try constructor.
  - apply IH.
  - apply Forall_take. exact Hx.
Qed.

(** A slice is a prefix: it keeps order and every property of the
    entries; it is no longer than a non-negative bound. *)
Lemma slice_to_firstn {A : Type} (l : list A) (n : Z) :
  exists k, slice_to l n = firstn k l.
Proof.
  unfold slice_to. destruct (n <? 0); eexists; reflexivity.
Qed.

Lemma slice_to_length {A : Type} (l : list A) (n : Z) :
  0 <= n -> Z.of_nat (length (slice_to l n)) <= n.
Proof.
  intros Hn. unfold slice_to.
  replace (n <? 0) with false by (symmetry; apply Z.ltb_ge; exact Hn).
  rewrite length_take. lia.
Qed.

Lemma sorted_scores (l : list Candidate) :
  StronglySorted desc l ->
  StronglySorted (fun a b : Q => (b <= a)%Q) (cand_score <$> l).
Proof.
  induction 1 as [|x l Hs IH Hx]; simpl; constructor; [exact IH|].
  apply Forall_fmap. exact Hx.
Qed.

End SelectorFacts.

Section SelectorClaims.
Import Geometry Selector.

Lemma top_detections_admissible h w dets config labels tl :
  Forall (admissible (target_class_indices labels tl) (get_score_thres config))
    (top_detections h w dets config labels tl).
Proof.
  unfold top_detections.
  destruct (slice_to_firstn
              (sort_desc (all_detections h w dets config labels tl))
              (get_max_boxes config)) as [k ->].
  apply Forall_take, sort_desc_Forall. unfold all_detections.
  apply collect_admissible.
Qed.

(** C1 (amended): the three returned sequences have [num_detections]
    entries; when [max_boxes] is not negative there are at most [max_boxes]
    of them; every score reaches the threshold; every class id is the index
    of a label that is a target label; the scores are in descending order;
    and the pool that is sorted and truncated already holds target classes
    only. *)
Theorem extract_detections_spec (h w : Z) (dets : list (list RawDetection))
    (config : VisualizationParams) (labels : list string)
    (tl : option (list string)) :
  (Z.of_nat (length (detection_boxes
                       (extract_detections h w dets config labels tl)))
     = num_detections (extract_detections h w dets config labels tl) /\
   Z.of_nat (length (detection_classes
                       (extract_detections h w dets config labels tl)))
     = num_detections (extract_detections h w dets config labels tl) /\
   Z.of_nat (length (detection_scores
                       (extract_detections h w dets config labels tl)))
     = num_detections (extract_detections h w dets config labels tl)) /\
  (0 <= get_max_boxes config ->
   num_detections (extract_detections h w dets config labels tl)
     <= get_max_boxes config) /\
  Forall (fun s : Q => (get_score_thres config <= s)%Q)
    (detection_scores (extract_detections h w dets config labels tl)) /\
  Forall (fun c : Z =>
            exists (i : nat) (label : string),
              c = Z.of_nat i /\ labels !! i = Some label /\
              label ∈ default default_target_labels tl)
    (detection_classes (extract_detections h w dets config labels tl)) /\
  StronglySorted (fun a b : Q => (b <= a)%Q)
    (detection_scores (extract_detections h w dets config labels tl)) /\
  Forall (fun c : Candidate =>
            cand_class c ∈ target_class_indices labels tl)
    (all_detections h w dets config labels tl).
Proof.
  pose proof (top_detections_admissible h w dets config labels tl) as Hadm.
  unfold extract_detections. simpl.
  split; [|split; [|split; [|split; [|split]]]].
  - rewrite !length_fmap. repeat split; reflexivity.
  - intros Hn. unfold top_detections. apply slice_to_length. exact Hn.
  - apply Forall_fmap. eapply Forall_impl; [exact Hadm|].
    intros c [_ Hs]. exact Hs.
  - apply Forall_fmap. eapply Forall_impl; [exact Hadm|].
    intros c [Hc _]. simpl. apply target_class_indices_elem. exact Hc.
  - apply sorted_scores. unfold top_detections.
    destruct (slice_to_firstn
                (sort_desc (all_detections h w dets config labels tl))
                (get_max_boxes config)) as [k ->].
    apply firstn_sorted, sort_desc_sorted.
  - unfold all_detections. eapply Forall_impl; [apply collect_admissible|].
    intros c [Hc _]. exact Hc.
Qed.

Lemma extract_detections_spec_witness :
  num_detections
    (extract_detections 480 640 scenario_detections scenario_config
       scenario_labels None) <= 50.
Proof.
  destruct (extract_detections_spec 480 640 scenario_detections
              scenario_config scenario_labels None) as (_ & Hmax & _).
  apply Hmax. vm_compute. discriminate.
Defined.

(** The three-class scenario: only the person at 0.9 is selected; the car
    is below the threshold and the dog, the highest score, is not a target
    class. *)
Example extract_detections_scenario :
  extract_detections 480 640 scenario_detections scenario_config
    scenario_labels None
  = {| detection_boxes := [mkBox 80 160 240 320];
       detection_classes := [0];
       detection_scores := [9 # 10];
       num_detections := 1 |}.
Proof. vm_compute. reflexivity. Qed.

(** C1 as stated fails on a negative [max_boxes_to_draw]: the slice
    [all_detections[:-1]] drops one entry and keeps the other, so one
    detection is returned although [max_boxes] is [-1]. *)
Lemma extract_detections_negative_max_boxes :
  get_max_boxes negative_config = -1 /\
  num_detections
    (extract_detections 480 640 two_persons negative_config
       scenario_labels None) = 1 /\
  ~ (num_detections
       (extract_detections 480 640 two_persons negative_config
          scenario_labels None)
     <= get_max_boxes negative_config).
Proof.
  split; [reflexivity|]. split; [vm_compute; reflexivity|].
  vm_compute. intros H. apply H. reflexivity.
Qed.

End SelectorClaims.

(** ** The frame orchestrator *)

Section OrchestratorFacts.
Import Geometry Selector Loitering Orchestrator.

Lemma find_best_in_range (t : Box) (boxes : list Box) (idx : Z) :
  find_best_matching_detection_index t boxes = Some idx ->
  0 <= idx < Z.of_nat (length boxes).
Proof.
  unfold find_best_matching_detection_index. intros H.
  destruct (best_match_final t boxes) as [(Hidx & _)|(i & Hidx & Hi & _)].
  - rewrite Hidx in H. discriminate.
  - rewrite Hidx, index_not_sentinel in H.
    inversion H. apply iou_at_lt in Hi. lia.
Qed.

Lemma getitem_in_range {A : Type} (l : list A) (i : Z) :
  0 <= i < Z.of_nat (length l) -> exists x, getitem l i = Some x /\ x ∈ l.
Proof.
  intros [H0 Hlt]. unfold getitem.
  replace (i <? 0) with false by (symmetry; apply Z.ltb_ge; exact H0).
  destruct (lookup_lt_is_Some_2 l (Z.to_nat i)) as [x Hx]; [lia|].
  exists x. split; [exact Hx|]. apply list_elem_of_lookup. eauto.
Qed.

Lemma getitem_elem {A : Type} (l : list A) (i : Z) (x : A) :
  getitem l i = Some x -> x ∈ l.
Proof.
  unfold getitem. intros H. apply list_elem_of_lookup.
  destruct (i <? 0); [destruct (_ <? 0); [discriminate|]|]; eauto.
Qed.

Lemma run_app (cs1 cs2 : list Call) :
  forall m m1,
    run cs1 m = Some m1 -> run (cs1 ++ cs2) m = run cs2 m1.
Proof.
  induction cs1 as [|c cs1 IH]; intros m m1 H; simpl in *.
  - inversion H. reflexivity.
  - destruct (call m c) as [m'|]; [|discriminate]. apply IH. exact H.
Qed.

(** The class filter returns parallel lists of classes that are all
    target indices. *)
Lemma filter_targets_spec (indices : gset Z) boxes scores classes idxs :
  forall bs ss cs,
    filter_targets indices boxes scores classes idxs = Some (bs, ss, cs) ->
    length bs = length cs /\ length ss = length cs /\
    Forall (fun c => c ∈ indices) cs.
Proof.
  induction idxs as [|i idxs IH]; intros bs ss cs H; simpl in H.
  - inversion H. repeat split; constructor.
  - destruct (getitem classes i) as [cls|]; [|discriminate]. simpl in H.
    destruct (bool_decide (cls ∈ indices)) eqn:Hb; [|exact (IH _ _ _ H)].
    destruct (getitem boxes i) as [b|]; [|discriminate]. simpl in H.
    destruct (getitem scores i) as [sc|]; [|discriminate]. simpl in H.
    destruct (filter_targets indices boxes scores classes idxs)
      as [[[bs' ss'] cs']|]; [|discriminate].
    simpl in H. inversion H; subst.
    destruct (IH _ _ _ eq_refl) as (H1 & H2 & H3).
    simpl. repeat split; [congruence | congruence |].
    constructor; [|exact H3]. apply bool_decide_eq_true in Hb. exact Hb.
Qed.

Lemma filtered_detections_valid detections labels tl boxes scores classes :
  filtered_detections detections labels tl = Some (boxes, scores, classes) ->
  valid_filtered labels boxes classes /\ length scores = length boxes.
Proof.
  unfold filtered_detections. intros H.
  apply filter_targets_spec in H as (H1 & H2 & H3).
  split; [split|]; [congruence | | congruence].
  eapply Forall_impl; [exact H3|]. intros c Hc. simpl in Hc.
  apply target_class_indices_elem in Hc as (i & label & -> & Hl & _).
  apply lookup_lt_Some in Hl. lia.
Qed.

(** One track: the step returns; it logs only [update_track] and
    [is_loitering], the log still replays to the manager, and the id joins
    [current_track_ids] exactly when the track is matched. *)
Lemma process_track_spec labels boxes classes ld epo pci st track m0 m :
  valid_filtered labels boxes classes ->
  manager st = Some m ->
  run (calls st) m0 = Some m ->
  exists st' m' mid,
    process_track labels boxes classes ld epo pci st track = Some st' /\
    manager st' = Some m' /\
    calls st' = calls st ++ mid /\
    Forall is_track_call mid /\
    run (calls st') m0 = Some m' /\
    current_track_ids st' =
      (if matched boxes track then {[ track_id track ]} else ∅)
        ∪ current_track_ids st.
Proof.
  intros [Hlen Hcls] Hm Hrun. unfold process_track, matched.
  destruct (find_best_matching_detection_index (tlbr track) boxes)
    as [best_idx|] eqn:Hbest.
  - apply find_best_in_range in Hbest. rewrite <- Hlen in Hbest.
    destruct (getitem_in_range classes best_idx Hbest) as (cls & -> & Hin).
    simpl. rewrite Forall_forall in Hcls. specialize (Hcls cls Hin).
    destruct (getitem_in_range labels cls Hcls) as (label & Hlabel & _).
    rewrite Hm.
    destruct (ld && (negb epo || negb (pci =? -1) && (cls =? pci))).
    + destruct (is_loitering (update_track m (track_id track)) (track_id track))
        as [r m2] eqn:Hil.
      rewrite Hlabel. simpl.
      eexists _, m2, _. split; [reflexivity|]. simpl.
      split; [reflexivity|]. split; [reflexivity|].
      split; [repeat constructor|]. split; [|reflexivity].
      rewrite (run_app _ _ _ _ Hrun). simpl.
      rewrite Hil. reflexivity.
    + rewrite Hlabel. simpl.
      eexists _, m, []. split; [reflexivity|]. simpl.
      split; [reflexivity|]. split; [rewrite app_nil_r; reflexivity|].
      split; [constructor|]. split; [exact Hrun | reflexivity].
  - exists st, m, []. split; [reflexivity|]. split; [exact Hm|].
    split; [rewrite app_nil_r; reflexivity|]. split; [constructor|].
    split; [exact Hrun|]. rewrite (left_id_L ∅ (∪)). reflexivity.
Qed.

Lemma process_tracks_spec labels boxes classes ld epo pci m0 online_targets :
  valid_filtered labels boxes classes ->
  forall st m,
    manager st = Some m ->
    run (calls st) m0 = Some m ->
    exists st' m' mid,
      process_tracks labels boxes classes ld epo pci st online_targets
        = Some st' /\
      manager st' = Some m' /\
      calls st' = calls st ++ mid /\
      Forall is_track_call mid /\
      run (calls st') m0 = Some m' /\
      current_track_ids st' =
        matched_ids boxes online_targets ∪ current_track_ids st.
Proof.
  intros Hvalid.
  induction online_targets as [|track rest IH]; intros st m Hm Hrun; simpl.
  - exists st, m, []. split; [reflexivity|]. split; [exact Hm|].
    split; [rewrite app_nil_r; reflexivity|]. split; [constructor|].
    split; [exact Hrun|]. rewrite (left_id_L ∅ (∪)). reflexivity.
  - destruct (process_track_spec labels boxes classes ld epo pci st track
                m0 m Hvalid Hm Hrun)
      as (st1 & m1 & mid1 & -> & Hm1 & Hc1 & Hf1 & Hr1 & Hids1).
    simpl.
    destruct (IH st1 m1 Hm1 Hr1)
      as (st2 & m2 & mid2 & -> & Hm2 & Hc2 & Hf2 & Hr2 & Hids2).
    exists st2, m2, (mid1 ++ mid2). split; [reflexivity|].
    split; [exact Hm2|].
    split; [rewrite Hc2, Hc1, app_assoc; reflexivity|].
    split; [apply Forall_app; split; assumption|].
    split; [exact Hr2|].
    rewrite Hids2, Hids1.
    rewrite (assoc_L (∪)). f_equal. apply (comm_L (∪)).
Qed.

End OrchestratorFacts.

Section OrchestratorClaims.
Import Geometry Selector Loitering Orchestrator.

(** C5 (amended): on a frame with a tracker and a loitering manager on
    which at least one detection passes the class filter,
    [draw_detections] returns; the calls it makes on the manager are one
    [update_frame_count], then only [update_track] / [is_loitering], then
    one [cleanup_missing_tracks]; the set passed to the cleanup holds the
    ids of the tracks for which the matcher found a detection; and the
    manager returned is the one these calls produce. *)
Theorem draw_detections_cleanup_once (detections : Detections)
    (labels : list string) (tracker : Tracker) (tl : option (list string))
    (ld : bool) (m : LoiteringDetectionManager) (epo : bool) (pci : Z)
    (boxes : list Box) (scores : list Q) (classes : list Z) :
  filtered_detections detections labels tl = Some (boxes, scores, classes) ->
  boxes <> [] ->
  exists st m' mid,
    draw_detections detections labels (Some tracker) tl ld (Some m) epo pci
      = Some st /\
    calls st =
      CallUpdateFrameCount :: mid
        ++ [CallCleanup (matched_ids boxes (tracker (zip boxes scores)))] /\
    Forall is_track_call mid /\
    manager st = Some m' /\
    run (calls st) m = Some m'.
Proof.
  intros Hf Hne.
  destruct (filtered_detections_valid _ _ _ _ _ _ Hf) as [Hvalid Hlen].
  unfold draw_detections. rewrite Hf. simpl.
  destruct boxes as [|b bs]; [contradiction|].
  destruct scores as [|s ss]; [discriminate|].
  set (rows := zip (b :: bs) (s :: ss)).
  change (zip (b :: bs) (s :: ss)) with ((b, s) :: zip bs ss) in rows.
  subst rows. cbv iota.
  destruct (process_tracks_spec labels (b :: bs) classes ld epo pci m
              (tracker ((b, s) :: zip bs ss)) Hvalid
              (mkFrame (Some (update_frame_count m)) [CallUpdateFrameCount] ∅ [])
              (update_frame_count m) eq_refl eq_refl)
    as (st1 & m1 & mid & -> & Hm1 & Hc1 & Hmid & Hr1 & Hids).
  simpl. rewrite Hm1.
  destruct (cleanup_spec m1 (current_track_ids st1)) as (m' & Hm' & _).
  rewrite Hm'. simpl.
  eexists _, m', mid. split; [reflexivity|]. simpl.
  simpl in Hids. rewrite (right_id_L ∅ (∪)) in Hids.
  split; [rewrite Hc1, Hids; reflexivity|].
  split; [exact Hmid|]. split; [reflexivity|].
  rewrite (run_app _ _ _ _ Hr1). simpl. rewrite Hm'. reflexivity.
Qed.

Lemma draw_detections_cleanup_once_witness :
  exists st m' mid,
    draw_detections person_frame scenario_labels (Some two_tracks) None
      true (Some following_both) false 0 = Some st /\
    calls st =
      CallUpdateFrameCount :: mid
        ++ [CallCleanup
              (matched_ids [mkBox 80 160 240 320]
                 (two_tracks (zip [mkBox 80 160 240 320] [9 # 10])))] /\
    Forall is_track_call mid /\
    manager st = Some m' /\
    run (calls st) following_both = Some m'.
Proof.
  apply (draw_detections_cleanup_once person_frame scenario_labels two_tracks
           None true following_both false 0
           [mkBox 80 160 240 320] [9 # 10] [0]).
  - vm_compute. reflexivity.
  - discriminate.
Defined.

(** C5 as stated fails: the tracker reports tracks 1 and 2, track 2
    overlaps no detection, and the set handed to [cleanup_missing_tracks]
    is [{1}]; the state the manager held for track 2 is deleted. *)
Lemma draw_detections_unmatched_track_dropped :
  exists st m',
    draw_detections person_frame scenario_labels (Some two_tracks) None
      true (Some following_both) false 0 = Some st /\
    calls st = [CallUpdateFrameCount; CallUpdateTrack 1; CallIsLoitering 1;
                CallCleanup {[ 1 ]}] /\
    (track_id <$> two_tracks [(mkBox 80 160 240 320, 9 # 10)]) = [1; 2] /\
    (2 ∉ ({[ 1 ]} : gset Z)) /\
    track_start_frames following_both !! 2 = Some 6 /\
    manager st = Some m' /\
    track_start_frames m' !! 2 = None.
Proof.
  eexists _, _. split; [vm_compute; reflexivity|].
  split; [vm_compute; reflexivity|].
  split; [reflexivity|].
  split; [rewrite elem_of_singleton; lia|].
  split; [vm_compute; reflexivity|].
  split; [reflexivity|].
  vm_compute. reflexivity.
Qed.

(** C4, at a frame on which no detection reaches the threshold: with a
    tracker and a loitering manager, [draw_detections] returns before
    [update_frame_count]; no call is made on the manager and its frame
    counter is the one it had. *)
Theorem draw_detections_quiet_frame_skips_count (tracker : Tracker)
    (m : LoiteringDetectionManager) (ld epo : bool) (pci : Z) :
  draw_detections quiet_frame scenario_labels (Some tracker) None ld
    (Some m) epo pci
  = Some (mkFrame (Some m) [] ∅ []).
Proof. reflexivity. Qed.

End OrchestratorClaims.

(** * Further properties of the code *)

(** ** [compute_iou] and the matcher *)

Section GeometryMore.
Import Geometry.

Lemma pymax_comm (a b : Q) : (pymax a b == pymax b a)%Q.
Proof.
  destruct (pymax_cases a b) as [[? ->]|[? ->]];
    destruct (pymax_cases b a) as [[? ->]|[? ->]]; lra.
Qed.

Lemma pymin_comm (a b : Q) : (pymin a b == pymin b a)%Q.
Proof.
  destruct (pymin_cases a b) as [[? ->]|[? ->]];
    destruct (pymin_cases b a) as [[? ->]|[? ->]]; lra.
Qed.

Lemma pymax_0_compat (x y : Q) : (x == y)%Q -> (pymax 0 x == pymax 0 y)%Q.
Proof.
  intros H.
  destruct (pymax_cases 0 x) as [[? ->]|[? ->]];
    destruct (pymax_cases 0 y) as [[? ->]|[? ->]]; lra.
Qed.

Lemma intersection_comm (boxA boxB : Box) :
  (intersection boxA boxB == intersection boxB boxA)%Q.
Proof.
  unfold intersection.
  apply Qmult_comp; apply pymax_0_compat;
    apply Qplus_comp; try apply Qopp_comp;
    first [apply pymin_comm | apply pymax_comm].
Qed.

(** The IoU does not depend on the order of its two arguments. *)
Theorem compute_iou_sym (boxA boxB : Box) :
  (compute_iou boxA boxB == compute_iou boxB boxA)%Q.
Proof.
  unfold compute_iou, denominator.
  apply Qdiv_comp; [apply intersection_comm|].
  rewrite (intersection_comm boxA boxB). ring.
Qed.


(** A match is always a valid index, and the detection it names overlaps
    the track box by a positive amount along both axes. *)
Theorem find_best_match_overlaps (track_box : Box)
    (detection_boxes : list Box) (idx : Z) :
  find_best_matching_detection_index track_box detection_boxes = Some idx ->
  0 <= idx < Z.of_nat (length detection_boxes) /\
  exists det_box,
    detection_boxes !! Z.to_nat idx = Some det_box /\
    (0 < overlap_x track_box det_box)%Q /\
    (0 < overlap_y track_box det_box)%Q.
Proof.
  unfold find_best_matching_detection_index. intros H.
  destruct (best_match_final track_box detection_boxes)
    as [(Hidx & _)|(i & Hidx & Hi & Hpos & _)].
  - rewrite Hidx in H. discriminate.
  - rewrite Hidx, index_not_sentinel in H. inversion H; subst idx.
    pose proof (iou_at_lt _ _ _ _ Hi) as Hlt. split; [lia|].
    rewrite Nat2Z.id. unfold iou_at in Hi.
    destruct (detection_boxes !! i) as [b|]; [|discriminate].
    exists b. split; [reflexivity|]. simpl in Hi. inversion Hi as [Hq].
    rewrite <- Hq in Hpos.
    destruct (intersection_cases track_box b)
      as [[_ Hz]|(Hx & Hy & _)]; [|split; assumption].
    pose proof (compute_iou_zero _ _ Hz). lra.
Qed.

Lemma find_best_match_overlaps_witness :
  0 <= 1 < Z.of_nat 3 /\
  exists det_box,
    [mkBox 10 10 12 12; mkBox 0 0 4 2; mkBox 0 2 4 4] !! Z.to_nat 1
      = Some det_box /\
    (0 < overlap_x (mkBox 0 0 4 4) det_box)%Q /\
    (0 < overlap_y (mkBox 0 0 4 4) det_box)%Q.
Proof.
  apply (find_best_match_overlaps (mkBox 0 0 4 4)
           [mkBox 10 10 12 12; mkBox 0 0 4 2; mkBox 0 2 4 4] 1).
  vm_compute. reflexivity.
Defined.

End GeometryMore.

(** ** [denormalize_and_rm_pad] *)

Section DenormalizeMore.
Import Geometry Selector.

(** [int] is monotone. *)
Lemma int_of_Q_mono (q1 q2 : Q) :
  (q1 <= q2)%Q -> int_of_Q q1 <= int_of_Q q2.
Proof.
  unfold Qle, int_of_Q. destruct q1 as [n1 d1], q2 as [n2 d2]. simpl.
  intros H.
  rewrite <- (Z.quot_mul_cancel_r n1 (Zpos d1) (Zpos d2)) by lia.
  rewrite <- (Z.quot_mul_cancel_r n2 (Zpos d2) (Zpos d1)) by lia.
  rewrite (Z.mul_comm (Zpos d2) (Zpos d1)).
  apply Z.quot_le_mono; lia.
Qed.

Lemma denormalize_coord_mono (size pad h w i : Z) (x y : Q) :
  0 <= size -> (x <= y)%Q ->
  denormalize_coord size pad h w i x <= denormalize_coord size pad h w i y.
Proof.
  intros Hs Hxy. unfold denormalize_coord.
  assert (int_of_Q (Binary64.float_mul x (Binary64.float_of_int size))
          <= int_of_Q (Binary64.float_mul y (Binary64.float_of_int size))).
  { apply int_of_Q_mono, round64_mono, Qmult_le_compat_r; [exact Hxy|].
    apply round64_nonneg.
    change 0%Q with (inject_Z 0). rewrite <- Zle_Qle. exact Hs. }
  destruct (negb (w =? size) && negb (i mod 2 =? 0));
    destruct (negb (h =? size) && (i mod 2 =? 0)); lia.
Qed.

(** Denormalizing keeps the order of the two coordinates of each axis: the
    same scaling and the same padding are applied to indices 0 and 2, and
    to indices 1 and 3. *)
Theorem denormalize_keeps_order (box : Box) (size pad h w : Z) :
  0 <= size ->
  ((c0 box <= c2 box)%Q ->
   (c0 (denormalize_and_rm_pad box size pad h w)
      <= c2 (denormalize_and_rm_pad box size pad h w))%Q) /\
  ((c1 box <= c3 box)%Q ->
   (c1 (denormalize_and_rm_pad box size pad h w)
      <= c3 (denormalize_and_rm_pad box size pad h w))%Q).
Proof.
  intros Hs. unfold denormalize_and_rm_pad. simpl.
  split; intros H; rewrite <- Zle_Qle.
  - pose proof (denormalize_coord_mono size pad h w 0 _ _ Hs H) as Hm.
    unfold denormalize_coord in *. exact Hm.
  - pose proof (denormalize_coord_mono size pad h w 1 _ _ Hs H) as Hm.
    unfold denormalize_coord in *. exact Hm.
Qed.

Lemma denormalize_keeps_order_witness :
  (c0 (denormalize_and_rm_pad scenario_box 640 80 480 640)
     <= c2 (denormalize_and_rm_pad scenario_box 640 80 480 640))%Q.
Proof.
  apply (denormalize_keeps_order scenario_box 640 80 480 640).
  - lia.
  - vm_compute. discriminate.
Defined.

(** The coordinate is the truncation of the rounded product:
    [int(0.29 * 100)] is 28 and [int(0.7 * 100)] is 70, where truncating
    the exact product of the float [0.7] and 100 would give 69. *)
Example denormalize_coord_rounds_first :
  denormalize_coord 100 0 100 100 0 (Binary64.float_lit (29 # 100)) = 28 /\
  denormalize_coord 100 0 100 100 0 (Binary64.float_lit (7 # 10)) = 70 /\
  int_of_Q (Binary64.float_lit (7 # 10) * 100) = 69.
Proof. repeat split; vm_compute; reflexivity. Qed.

End DenormalizeMore.

(** ** The candidate pool, the sort and the truncation *)

Section PoolMore.
Import Geometry Selector.

Lemma collect_class_elem (thr : Q) (size pad h w class_id : Z)
    (detection : list RawDetection) (c : Candidate) :
  c ∈ collect_class thr size pad h w class_id detection <->
  exists det,
    det ∈ detection /\ (thr <= det_score det)%Q /\
    c = mkCand (det_score det) class_id
          (denormalize_and_rm_pad (bbox det) size pad h w).
Proof.
  induction detection as [|d rest IH]; simpl.
  - split.
    + intros H. inversion H.
    + intros (det & H & _). inversion H.
  - destruct (Qle_bool thr (det_score d)) eqn:Hs.
    + rewrite elem_of_cons, IH. split.
      * intros [->|(det & Hin & Ht & ->)].
        -- exists d. split; [left|]. split; [|reflexivity].
           apply Qle_bool_iff. exact Hs.
        -- exists det. split; [right; exact Hin|]. split; [exact Ht|reflexivity].
      * intros (det & Hin & Ht & ->).
        apply elem_of_cons in Hin as [->|Hin]; [left; reflexivity|].
        right. exists det. split; [exact Hin|]. split; [exact Ht|reflexivity].
    + rewrite IH. split.
      * intros (det & Hin & Ht & ->). exists det.
        split; [right; exact Hin|]. split; [exact Ht|reflexivity].
      * intros (det & Hin & Ht & ->).
        apply elem_of_cons in Hin as [->|Hin].
        -- apply Qle_bool_iff in Ht. congruence.
        -- exists det. split; [exact Hin|]. split; [exact Ht|reflexivity].
Qed.

Lemma collect_elem (indices : gset Z) (thr : Q) (size pad h w : Z)
    (detections : list (list RawDetection)) (c : Candidate) :
  forall class_id,
    c ∈ collect indices thr size pad h w class_id detections <->
    exists (i : nat) detection det,
      detections !! i = Some detection /\ det ∈ detection /\
      class_id + Z.of_nat i ∈ indices /\ (thr <= det_score det)%Q /\
      c = mkCand (det_score det) (class_id + Z.of_nat i)
            (denormalize_and_rm_pad (bbox det) size pad h w).
Proof.
  induction detections as [|detection rest IH]; intros class_id; simpl.
  - split.
    + intros H. inversion H.
    + intros (i & dl & det & H & _). rewrite lookup_nil in H. discriminate.
  - rewrite elem_of_app, IH. split.
    + intros [H|(i & dl & det & Hl & Hin & Hidx & Ht & ->)].
      * destruct (bool_decide (class_id ∈ indices)) eqn:Hb;
          [|inversion H].
        apply bool_decide_eq_true in Hb.
        apply collect_class_elem in H as (det & Hin & Ht & ->).
        exists 0%nat, detection, det. rewrite Z.add_0_r.
        repeat (split; [assumption || reflexivity|]). reflexivity.
      * exists (S i), dl, det.
        replace (class_id + Z.of_nat (S i)) with (class_id + 1 + Z.of_nat i)
          by lia.
        repeat (split; [assumption|]). reflexivity.
    + intros (i & dl & det & Hl & Hin & Hidx & Ht & ->).
      destruct i as [|i]; simpl in Hl.
      * left. inversion Hl; subst dl. rewrite Z.add_0_r in *.
        rewrite bool_decide_eq_true_2 by exact Hidx.
        apply collect_class_elem. exists det.
        split; [exact Hin|]. split; [exact Ht|reflexivity].
      * right. exists i, dl, det.
        replace (class_id + 1 + Z.of_nat i) with (class_id + Z.of_nat (S i))
          by lia.
        repeat (split; [assumption|]). reflexivity.
Qed.

(** The pool holds exactly the raw detections of a target class whose
    score reaches the threshold, each with its score, the index of its
    class and its denormalized box. *)
Theorem all_detections_elem (h w : Z) (dets : list (list RawDetection))
    (config : VisualizationParams) (labels : list string)
    (tl : option (list string)) (c : Candidate) :
  c ∈ all_detections h w dets config labels tl <->
  exists (i : nat) detection det,
    dets !! i = Some detection /\ det ∈ detection /\
    Z.of_nat i ∈ target_class_indices labels tl /\
    (get_score_thres config <= det_score det)%Q /\
    c = mkCand (det_score det) (Z.of_nat i) (denormalize_for h w (bbox det)).
Proof.
  unfold all_detections. rewrite collect_elem. reflexivity.
Qed.

Lemma insert_desc_perm x l : insert_desc x l ≡ₚ x :: l.
Proof.
  induction l as [|y l IH]; simpl; [reflexivity|].
  destruct (Qltb (cand_score x) (cand_score y)); [|reflexivity].
  rewrite IH. apply Permutation_swap.
Qed.

Lemma sort_desc_perm l : sort_desc l ≡ₚ l.
Proof.
  induction l as [|x l IH]; simpl; [reflexivity|].
  rewrite insert_desc_perm, IH. reflexivity.
Qed.

Lemma sorted_app_order {A : Type} (R : A -> A -> Prop) (l1 l2 : list A) :
  StronglySorted R (l1 ++ l2) ->
  forall x y, x ∈ l1 -> y ∈ l2 -> R x y.
Proof.
  induction l1 as [|a l1 IH]; simpl; intros Hs x y Hx Hy.
  - inversion Hx.
  - inversion Hs as [|? ? Hs' Ha]; subst.
    apply elem_of_cons in Hx as [->|Hx].
    + rewrite Forall_forall in Ha. apply Ha, elem_of_app. right. exact Hy.
    + exact (IH Hs' x y Hx Hy).
Qed.

(** The truncation keeps the best: the pool is, up to order, the selected
    entries followed by dropped ones; no dropped entry scores higher than
    a selected one; and nothing is dropped when the pool has at most
    [max_boxes] entries. *)
Theorem top_detections_keep_best (h w : Z) (dets : list (list RawDetection))
    (config : VisualizationParams) (labels : list string)
    (tl : option (list string)) :
  exists dropped,
    all_detections h w dets config labels tl
      ≡ₚ top_detections h w dets config labels tl ++ dropped /\
    (forall c d, c ∈ top_detections h w dets config labels tl ->
                 d ∈ dropped -> (cand_score d <= cand_score c)%Q) /\
    (Z.of_nat (length (all_detections h w dets config labels tl))
       <= get_max_boxes config -> dropped = []).
Proof.
  unfold top_detections.
  set (pool := all_detections h w dets config labels tl).
  set (n := get_max_boxes config).
  set (k := if n <? 0 then Z.to_nat (Z.of_nat (length (sort_desc pool)) + n)
            else Z.to_nat n).
  assert (Hk : slice_to (sort_desc pool) n = firstn k (sort_desc pool)).
  { unfold slice_to, k. destruct (n <? 0); reflexivity. }
  exists (skipn k (sort_desc pool)). rewrite Hk. split; [|split].
  - rewrite take_drop. symmetry. apply sort_desc_perm.
  - intros c d Hc Hd.
    apply (sorted_app_order desc (firstn k (sort_desc pool))
             (skipn k (sort_desc pool))); [|exact Hc|exact Hd].
    rewrite take_drop. apply sort_desc_sorted.
  - intros Hlen. apply drop_ge. rewrite sort_desc_length. unfold k.
    destruct (n <? 0) eqn:Hn; [apply Z.ltb_lt in Hn|]; lia.
Qed.

Lemma top_detections_keep_best_witness :
  exists dropped,
    all_detections 480 640 scenario_detections scenario_config
      scenario_labels None
      ≡ₚ top_detections 480 640 scenario_detections scenario_config
           scenario_labels None ++ dropped /\
    dropped = [].
Proof.
  destruct (top_detections_keep_best 480 640 scenario_detections
              scenario_config scenario_labels None)
    as (dropped & Hperm & _ & Hnone).
  exists dropped. split; [exact Hperm|].
  apply Hnone. vm_compute. discriminate.
Defined.

Lemma insert_desc_filter (v : Q) x l :
  List.filter (has_score v) (insert_desc x l)
  = List.filter (has_score v) (x :: l).
Proof.
  induction l as [|y l IH]; [reflexivity|].
  simpl insert_desc.
  destruct (Qltb (cand_score x) (cand_score y)) eqn:Hlt; [|reflexivity].
  apply Qltb_lt in Hlt.
  change (List.filter (has_score v) (y :: insert_desc x l))
    with (if has_score v y
          then y :: List.filter (has_score v) (insert_desc x l)
          else List.filter (has_score v) (insert_desc x l)).
  rewrite IH. simpl.
  destruct (has_score v x) eqn:Hx; destruct (has_score v y) eqn:Hy;
    try reflexivity.
  unfold has_score in *. apply Qeq_bool_iff in Hx, Hy. lra.
Qed.

(** The sort is stable: the entries of any one score come out in the
    order in which they were put into the pool. *)
Theorem sort_desc_stable (v : Q) (l : list Candidate) :
  List.filter (has_score v) (sort_desc l) = List.filter (has_score v) l.
Proof.
  induction l as [|x l IH]; [reflexivity|].
  simpl sort_desc. rewrite insert_desc_filter. simpl. rewrite IH.
  reflexivity.
Qed.

End PoolMore.

(** ** The loitering manager over runs of calls *)

Section LoiteringMore.
Import Loitering.

Lemma manager_eq (a b : LoiteringDetectionManager) :
  loitering_threshold a = loitering_threshold b ->
  frame_threshold a = frame_threshold b ->
  track_start_frames a = track_start_frames b ->
  current_frame a = current_frame b ->
  a = b.
Proof. destruct a, b; simpl; intros; subst; reflexivity. Qed.

(** What one call does to the frame counter and to the recorded start
    frames: a recorded start frame is one that was recorded before, or the
    current frame. *)
Lemma call_effect self c self' :
  call self c = Some self' ->
  current_frame self' =
    current_frame self + frames_advanced [c] /\
  forall k s, track_start_frames self' !! k = Some s ->
    track_start_frames self !! k = Some s \/ s = current_frame self.
Proof.
  destruct c as [|id|id|ids]; simpl; intros H.
  - inversion H; subst. simpl. split; [lia|]. intros k s Hk. left. exact Hk.
  - inversion H; subst. clear H. split.
    + unfold update_track. destruct (negb _); simpl; lia.
    + intros k s Hk.
      destruct (track_start_frames self !! id) as [s0|] eqn:Hid.
      * rewrite (update_track_known _ _ _ Hid) in Hk. left. exact Hk.
      * rewrite (update_track_unknown _ _ Hid) in Hk. simpl in Hk.
        destruct (decide (id = k)) as [->|Hne].
        -- rewrite lookup_insert_eq in Hk. inversion Hk. right. reflexivity.
        -- rewrite lookup_insert_ne in Hk by exact Hne. left. exact Hk.
  - inversion H; subst. clear H.
    assert (Hpure : snd (is_loitering self id) = self).
    { destruct (track_start_frames self !! id) as [s0|] eqn:Hid.
      - rewrite (is_loitering_known _ _ _ Hid). reflexivity.
      - rewrite (is_loitering_unknown _ _ Hid). reflexivity. }
    rewrite Hpure. split; [lia|]. intros k s Hk. left. exact Hk.
  - destruct (cleanup_spec self ids) as (m & Hm & Hl & Hc & _).
    rewrite Hm in H. inversion H; subst. split; [lia|].
    intros k s Hk. rewrite Hl in Hk. left.
    destruct (decide (k ∈ ids)); [exact Hk | discriminate].
Qed.

Lemma run_effect cs :
  forall self self' lo,
    run cs self = Some self' ->
    lo <= current_frame self ->
    (forall k s, track_start_frames self !! k = Some s ->
                 lo <= s <= current_frame self) ->
    current_frame self' = current_frame self + frames_advanced cs /\
    0 <= frames_advanced cs /\
    (forall k s, track_start_frames self' !! k = Some s ->
                 lo <= s <= current_frame self').
Proof.
  induction cs as [|c cs IH]; intros self self' lo Hrun Hlo Hinv.
  - simpl in Hrun. inversion Hrun; subst. simpl.
    split; [lia|]. split; [lia | exact Hinv].
  - simpl in Hrun. destruct (call self c) as [s1|] eqn:Hcall; [|discriminate].
    destruct (call_effect _ _ _ Hcall) as [Hc1 Hs1].
    assert (Hstep : 0 <= frames_advanced [c])
      by (destruct c; simpl; lia).
    destruct (IH s1 self' lo Hrun) as (Hc2 & Hnn & Hinv2).
    + lia.
    + intros k s Hk. destruct (Hs1 k s Hk) as [Hold| ->].
      * specialize (Hinv k s Hold). lia.
      * lia.
    + assert (Hsplit : frames_advanced (c :: cs)
                       = frames_advanced [c] + frames_advanced cs)
        by (destruct c; simpl; lia).
      rewrite Hsplit. split; [lia|]. split; [lia | exact Hinv2].
Qed.

Lemma run_current_frame cs :
  forall self self',
    run cs self = Some self' ->
    current_frame self' = current_frame self + frames_advanced cs.
Proof.
  induction cs as [|c cs IH]; intros self self' Hrun; simpl in Hrun.
  - inversion Hrun. simpl. lia.
  - destruct (call self c) as [m|] eqn:Hcall; [|discriminate].
    destruct (call_effect _ _ _ Hcall) as [Hc _].
    rewrite (IH _ _ Hrun), Hc. destruct c; simpl; lia.
Qed.

(** On a manager built by [__init__] and driven by any calls, the frame
    counter is the number of [update_frame_count] calls made, and every
    recorded start frame lies between 0 and the frame counter, so the
    elapsed frames of a recorded track are never negative. *)
Theorem start_frames_in_range (lt fps : Q) (cs : list Call)
    (self : LoiteringDetectionManager) :
  run cs (init lt fps) = Some self ->
  current_frame self = frames_advanced cs /\
  forall k s, track_start_frames self !! k = Some s ->
    0 <= s <= current_frame self.
Proof.
  intros Hrun.
  destruct (run_effect cs (init lt fps) self 0 Hrun) as (Hc & _ & Hinv).
  - simpl. lia.
  - intros k s Hk. simpl in Hk. rewrite lookup_empty in Hk. discriminate.
  - split; [simpl in Hc; lia | exact Hinv].
Qed.

Lemma start_frames_in_range_witness :
  let self := Manager 1 (1 * 10) {[ 7 := 5 ]} 16 in
  current_frame self = 16 /\
  forall k s, track_start_frames self !! k = Some s ->
    0 <= s <= current_frame self.
Proof.
  apply (start_frames_in_range 1 10
           (repeat CallUpdateFrameCount 5 ++ [CallUpdateTrack 7]
              ++ repeat CallUpdateFrameCount 11)).
  vm_compute. reflexivity.
Defined.

(** The dwell time of a track is counted in [update_frame_count] calls:
    after the first [update_track] of an id and any calls whose cleanups
    keep it, [is_loitering] compares the frame threshold with the number
    of [update_frame_count] calls made since. *)
Theorem dwell_counts_frames (self : LoiteringDetectionManager)
    (track_id : Z) (cs : list Call) :
  track_start_frames self !! track_id = None ->
  Forall (keeps track_id) cs ->
  exists self',
    run cs (update_track self track_id) = Some self' /\
    fst (is_loitering self' track_id)
      = Qltb (frame_threshold self) (inject_Z (frames_advanced cs)).
Proof.
  intros Hnone Hkeep.
  set (m0 := update_track self track_id).
  assert (Hs0 : track_start_frames m0 !! track_id = Some (current_frame self)).
  { unfold m0. rewrite (update_track_unknown _ _ Hnone). simpl.
    apply lookup_insert_eq. }
  assert (Hc0 : current_frame m0 = current_frame self).
  { unfold m0. rewrite (update_track_unknown _ _ Hnone). reflexivity. }
  assert (Ht0 : frame_threshold m0 = frame_threshold self).
  { unfold m0. rewrite (update_track_unknown _ _ Hnone). reflexivity. }
  destruct (run_total cs m0) as (m1 & Hrun & Ht1 & _).
  exists m1. split; [exact Hrun|].
  pose proof (run_keeps_start _ _ _ Hkeep _ _ Hs0 Hrun) as Hs1.
  pose proof (run_current_frame _ _ _ Hrun) as Hc1.
  rewrite (is_loitering_known _ _ _ Hs1). simpl.
  rewrite Ht1, Ht0, Hc1, Hc0.
  replace (current_frame self + frames_advanced cs - current_frame self)
    with (frames_advanced cs) by lia.
  reflexivity.
Qed.

Lemma dwell_counts_frames_witness :
  exists self',
    run (repeat CallUpdateFrameCount 11 ++ [CallCleanup {[ 7 ]}])
      (update_track (init 1 10) 7) = Some self' /\
    fst (is_loitering self' 7)
      = Qltb (frame_threshold (init 1 10))
          (inject_Z (frames_advanced
                       (repeat CallUpdateFrameCount 11 ++ [CallCleanup {[ 7 ]}]))).
Proof.
  apply (dwell_counts_frames (init 1 10) 7
           (repeat CallUpdateFrameCount 11 ++ [CallCleanup {[ 7 ]}])).
  - reflexivity.
  - repeat constructor.
Defined.

(** Two cleanups in a row are one cleanup with the intersection of the two
    active sets; in particular a cleanup repeated with the same set changes
    nothing more. *)
Theorem cleanup_twice (self : LoiteringDetectionManager) (ids1 ids2 : gset Z) :
  exists self1 self2,
    cleanup_missing_tracks self ids1 = Some self1 /\
    cleanup_missing_tracks self1 ids2 = Some self2 /\
    cleanup_missing_tracks self (ids1 ∩ ids2) = Some self2 /\
    cleanup_missing_tracks self1 ids1 = Some self1.
Proof.
  destruct (cleanup_spec self ids1) as (m1 & H1 & L1 & C1 & T1 & P1).
  destruct (cleanup_spec m1 ids2) as (m2 & H2 & L2 & C2 & T2 & P2).
  destruct (cleanup_spec self (ids1 ∩ ids2)) as (m3 & H3 & L3 & C3 & T3 & P3).
  destruct (cleanup_spec m1 ids1) as (m4 & H4 & L4 & C4 & T4 & P4).
  exists m1, m2. split; [exact H1|]. split; [exact H2|]. split.
  - rewrite H3. f_equal. apply manager_eq; try congruence.
    apply map_eq. intros k. rewrite L3, L2, L1.
    destruct (decide (k ∈ ids1)) as [Hk1|Hk1];
      destruct (decide (k ∈ ids2)) as [Hk2|Hk2].
    + rewrite decide_True by (apply elem_of_intersection; tauto). reflexivity.
    + rewrite decide_False by (rewrite elem_of_intersection; tauto). reflexivity.
    + rewrite decide_False by (rewrite elem_of_intersection; tauto). reflexivity.
    + rewrite decide_False by (rewrite elem_of_intersection; tauto). reflexivity.
  - rewrite H4. f_equal. apply manager_eq; try congruence.
    apply map_eq. intros k. rewrite L4, L1.
    destruct (decide (k ∈ ids1)); reflexivity.
Qed.

(** Within a frame the order in which two tracks are observed does not
    matter. *)
Theorem update_track_comm (self : LoiteringDetectionManager) (a b : Z) :
  update_track (update_track self a) b = update_track (update_track self b) a.
Proof.
  destruct (decide (a = b)) as [->|Hne]; [reflexivity|].
  destruct (track_start_frames self !! a) as [sa|] eqn:Ha;
    destruct (track_start_frames self !! b) as [sb|] eqn:Hb.
  - rewrite (update_track_known _ _ _ Ha), (update_track_known _ _ _ Hb),
      (update_track_known _ _ _ Ha). reflexivity.
  - rewrite (update_track_known _ _ _ Ha).
    symmetry. apply (update_track_known _ _ sa).
    rewrite (update_track_unknown _ _ Hb). simpl.
    rewrite lookup_insert_ne by congruence. exact Ha.
  - rewrite (update_track_known _ _ _ Hb).
    apply (update_track_known _ _ sb).
    rewrite (update_track_unknown _ _ Ha). simpl.
    rewrite lookup_insert_ne by congruence. exact Hb.
  - rewrite (update_track_unknown self a Ha), (update_track_unknown self b Hb).
    rewrite !update_track_unknown
      by (simpl; rewrite lookup_insert_ne by congruence; assumption).
    simpl. unfold with_track_start_frames. simpl. f_equal.
    apply insert_insert_ne. congruence.
Qed.

End LoiteringMore.

(** ** The selector feeding the orchestrator *)

Section PipelineMore.
Import Geometry Selector Loitering Orchestrator.

Lemma getitem_of_nat {A : Type} (l : list A) (i : nat) :
  getitem l (Z.of_nat i) = l !! i.
Proof.
  unfold getitem.
  replace (Z.of_nat i <? 0) with false by (symmetry; apply Z.ltb_ge; lia).
  rewrite Nat2Z.id. reflexivity.
Qed.

Lemma filter_targets_cons (indices : gset Z) (boxes : list Box)
    (scores : list Q) (classes : list Z) (i : Z) (rest : list Z) :
  filter_targets indices boxes scores classes (i :: rest)
  = (cls ← getitem classes i;
     if bool_decide (cls ∈ indices) then
       b ← getitem boxes i;
       s ← getitem scores i;
       '(bs, ss, cs) ← filter_targets indices boxes scores classes rest;
       Some (b :: bs, s :: ss, cls :: cs)
     else filter_targets indices boxes scores classes rest).
Proof. reflexivity. Qed.

(** When every class is a target index, the class filter over the indices
    [k, k+1, ...] returns the three lists from position [k] on. *)
Lemma filter_targets_all (indices : gset Z) (boxes : list Box)
    (scores : list Q) (classes : list Z) :
  length boxes = length classes ->
  length scores = length classes ->
  Forall (fun c => c ∈ indices) classes ->
  forall n k, (k + n = length classes)%nat ->
    filter_targets indices boxes scores classes (Z.of_nat <$> seq k n)
    = Some (drop k boxes, drop k scores, drop k classes).
Proof.
  intros Hb Hs Hall. induction n as [|n IH]; intros k Hk.
  - simpl. rewrite !drop_ge by lia. reflexivity.
  - change (Z.of_nat <$> seq k (S n))
      with (Z.of_nat k :: (Z.of_nat <$> seq (S k) n)).
    rewrite filter_targets_cons, !getitem_of_nat.
    destruct (lookup_lt_is_Some_2 classes k) as [cls Hcls]; [lia|].
    destruct (lookup_lt_is_Some_2 boxes k) as [b Hbx]; [lia|].
    destruct (lookup_lt_is_Some_2 scores k) as [sc Hsc]; [lia|].
    rewrite Hcls, Hbx, Hsc. simpl.
    rewrite Forall_forall in Hall.
    rewrite bool_decide_eq_true_2
      by (apply Hall, list_elem_of_lookup; eauto).
    rewrite (IH (S k)) by lia. simpl.
    rewrite (drop_S _ _ _ Hcls), (drop_S _ _ _ Hbx), (drop_S _ _ _ Hsc).
    reflexivity.
Qed.

(** The class filter applied to the three columns of a list of candidates
    whose classes are all target indices. *)
Lemma filter_targets_of_candidates (indices : gset Z) (top : list Candidate) :
  Forall (fun c => cand_class c ∈ indices) top ->
  filter_targets indices (cand_box <$> top) (cand_score <$> top)
    (cand_class <$> top) (Orchestrator.range (Z.of_nat (length top)))
  = Some (cand_box <$> top, cand_score <$> top, cand_class <$> top).
Proof.
  intros Hall. unfold Orchestrator.range. rewrite Nat2Z.id.
  rewrite (filter_targets_all _ _ _ _) with (k := 0%nat) (n := length top).
  - reflexivity.
  - rewrite !length_fmap. reflexivity.
  - rewrite !length_fmap. reflexivity.
  - apply Forall_fmap. exact Hall.
  - rewrite length_fmap. reflexivity.
Qed.

Lemma top_detections_targets h w dets config labels tl :
  Forall (fun c => cand_class c ∈ target_class_indices labels tl)
    (top_detections h w dets config labels tl).
Proof.
  eapply Forall_impl; [apply top_detections_admissible|].
  intros c [Hc _]. exact Hc.
Qed.

(** The class filter at the head of [draw_detections] changes nothing in
    what [extract_detections] returns for the same labels and target
    labels: it never raises and keeps every entry. *)
Theorem filtered_detections_of_extract (h w : Z)
    (dets : list (list RawDetection)) (config : VisualizationParams)
    (labels : list string) (tl : option (list string)) :
  filtered_detections (extract_detections h w dets config labels tl)
    labels tl
  = Some (detection_boxes (extract_detections h w dets config labels tl),
          detection_scores (extract_detections h w dets config labels tl),
          detection_classes (extract_detections h w dets config labels tl)).
Proof.
  unfold filtered_detections, extract_detections. simpl.
  apply filter_targets_of_candidates, top_detections_targets.
Qed.

End PipelineMore.

(** ** [draw_detections] and [inference_result_handler] *)

Section FrameMore.
Import Geometry Selector Loitering Orchestrator.

(** One track, whatever the state: the step returns a state when the
    filtered detections are valid. *)
Lemma process_track_total labels boxes classes ld epo pci st track :
  valid_filtered labels boxes classes ->
  exists st',
    process_track labels boxes classes ld epo pci st track = Some st'.
Proof.
  intros [Hlen Hcls]. unfold process_track.
  destruct (find_best_matching_detection_index (tlbr track) boxes)
    as [best_idx|] eqn:Hbest; [|eauto].
  apply find_best_in_range in Hbest. rewrite <- Hlen in Hbest.
  destruct (getitem_in_range classes best_idx Hbest) as (cls & -> & Hin).
  simpl. rewrite Forall_forall in Hcls. specialize (Hcls cls Hin).
  destruct (getitem_in_range labels cls Hcls) as (label & Hlabel & _).
  destruct (manager st) as [m|].
  - destruct (ld && (negb epo || negb (pci =? -1) && (cls =? pci))).
    + destruct (is_loitering (update_track m (track_id track)) (track_id track))
        as [r m2].
      rewrite Hlabel. simpl. eauto.
    + rewrite Hlabel. simpl. eauto.
  - rewrite Hlabel. simpl. eauto.
Qed.

Lemma process_tracks_total labels boxes classes ld epo pci online_targets :
  valid_filtered labels boxes classes ->
  forall st,
    exists st',
      process_tracks labels boxes classes ld epo pci st online_targets
      = Some st'.
Proof.
  intros Hvalid. induction online_targets as [|track rest IH]; intros st.
  - simpl. eauto.
  - simpl.
    destruct (process_track_total labels boxes classes ld epo pci st track
                Hvalid) as [st1 ->].
    simpl. apply IH.
Qed.

(** The path without a tracker draws one plain box per index. *)
Lemma draw_raw_total labels boxes scores classes :
  valid_filtered labels boxes classes ->
  length scores = length boxes ->
  forall idxs,
    Forall (fun i => 0 <= i < Z.of_nat (length boxes)) idxs ->
    exists ds,
      draw_raw labels boxes scores classes idxs = Some ds /\
      length ds = length idxs /\
      Forall (fun d => drawn_red d = false /\ drawn_track d = None) ds.
Proof.
  intros [Hlen Hcls] Hsc idxs Hidx.
  induction Hidx as [|i idxs Hi _ IH]; simpl.
  - exists []. repeat split; constructor.
  - assert (Hic : 0 <= i < Z.of_nat (length classes)) by (rewrite Hlen; exact Hi).
    assert (His : 0 <= i < Z.of_nat (length scores)) by (rewrite Hsc; exact Hi).
    destruct (getitem_in_range classes i Hic) as (cls & -> & Hin).
    destruct (getitem_in_range boxes i Hi) as (b & -> & _).
    destruct (getitem_in_range scores i His) as (s & -> & _).
    simpl. rewrite Forall_forall in Hcls. specialize (Hcls cls Hin).
    destruct (getitem_in_range labels cls Hcls) as (label & -> & _).
    destruct IH as (ds & -> & Hl & Hf). simpl.
    eexists. split; [reflexivity|]. simpl. split; [congruence|].
    constructor; [split; reflexivity | exact Hf].
Qed.

Lemma range_in_bounds (n : nat) :
  Forall (fun i => 0 <= i < Z.of_nat n) (Orchestrator.range (Z.of_nat n)).
Proof.
  unfold Orchestrator.range. rewrite Nat2Z.id. apply Forall_fmap.
  apply Forall_forall. intros i Hi. apply elem_of_seq in Hi. simpl. lia.
Qed.

Lemma range_length (n : nat) :
  length (Orchestrator.range (Z.of_nat n)) = n.
Proof.
  unfold Orchestrator.range. rewrite Nat2Z.id, length_fmap, length_seq.
  reflexivity.
Qed.

(** Without a tracker, [draw_detections] draws each filtered detection
    once, in plain colour and without a track id, makes no call on the
    loitering manager and hands it back as it was. *)
Theorem draw_detections_without_tracker (detections : Detections)
    (labels : list string) (tl : option (list string)) (ld : bool)
    (mgr : option LoiteringDetectionManager) (epo : bool) (pci : Z)
    (boxes : list Box) (scores : list Q) (classes : list Z) :
  filtered_detections detections labels tl = Some (boxes, scores, classes) ->
  exists ds,
    draw_detections detections labels None tl ld mgr epo pci
      = Some (mkFrame mgr [] ∅ ds) /\
    length ds = length boxes /\
    Forall (fun d => drawn_red d = false /\ drawn_track d = None) ds.
Proof.
  intros Hf.
  destruct (filtered_detections_valid _ _ _ _ _ _ Hf) as [Hvalid Hlen].
  unfold draw_detections. rewrite Hf. simpl.
  destruct (draw_raw_total labels boxes scores classes Hvalid Hlen
              (Orchestrator.range (Z.of_nat (length boxes)))
              (range_in_bounds _)) as (ds & -> & Hl & Hplain).
  simpl. exists ds. split; [reflexivity|].
  split; [rewrite Hl; apply range_length | exact Hplain].
Qed.

Lemma draw_detections_without_tracker_witness :
  exists ds,
    draw_detections person_frame scenario_labels None None true
      (Some following_both) false 0
      = Some (mkFrame (Some following_both) [] ∅ ds) /\
    length ds = length [mkBox 80 160 240 320] /\
    Forall (fun d => drawn_red d = false /\ drawn_track d = None) ds.
Proof.
  apply (draw_detections_without_tracker person_frame scenario_labels None
           true (Some following_both) false 0
           [mkBox 80 160 240 320] [9 # 10] [0]).
  vm_compute. reflexivity.
Defined.

(** [draw_detections] returns on every filtered input, with or without a
    tracker and a manager. *)
Lemma draw_detections_defined detections labels tracker tl ld mgr epo pci
    boxes scores classes :
  filtered_detections detections labels tl = Some (boxes, scores, classes) ->
  exists st,
    draw_detections detections labels tracker tl ld mgr epo pci = Some st.
Proof.
  intros Hf.
  destruct (filtered_detections_valid _ _ _ _ _ _ Hf) as [Hvalid Hlen].
  destruct tracker as [tracker|].
  - unfold draw_detections. rewrite Hf. simpl.
    destruct (zip boxes scores) as [|row rows]; [eauto|].
    set (st0 := match mgr with
                | Some m => mkFrame (Some (update_frame_count m))
                              [CallUpdateFrameCount] ∅ []
                | None => mkFrame mgr [] ∅ []
                end).
    destruct (process_tracks_total labels boxes classes ld epo pci
                (tracker (row :: rows)) Hvalid st0) as [st1 ->].
    simpl. destruct (manager st1) as [m1|]; [|eauto].
    destruct (cleanup_spec m1 (current_track_ids st1)) as (m' & -> & _).
    simpl. eauto.
  - unfold draw_detections. rewrite Hf. simpl.
    destruct (draw_raw_total labels boxes scores classes Hvalid Hlen
                (Orchestrator.range (Z.of_nat (length boxes)))
                (range_in_bounds _)) as (ds & -> & _).
    simpl. eauto.
Qed.

End FrameMore.

Section TrackedFrameMore.
Import Geometry Selector Loitering Orchestrator.

Lemma observed_weaken boxes classes ld epo pci (l1 l2 : list Track) c :
  (forall t, t ∈ l1 -> t ∈ l2) ->
  observed boxes classes ld epo pci l1 c ->
  observed boxes classes ld epo pci l2 c.
Proof.
  intros Hsub (t & i & cls & Ht & Hrest). exists t, i, cls.
  split; [apply Hsub; exact Ht | exact Hrest].
Qed.

Lemma relevant_true (ld epo : bool) (pci cls : Z) :
  ld && (negb epo || negb (pci =? -1) && (cls =? pci)) = true ->
  ld = true /\ (epo = true -> pci <> -1 /\ cls = pci).
Proof.
  intros H. apply andb_true_iff in H as [Hld H]. split; [exact Hld|].
  intros ->. simpl in H. apply andb_true_iff in H as [H1 H2].
  apply negb_true_iff, Z.eqb_neq in H1. apply Z.eqb_eq in H2. tauto.
Qed.

(** What one iteration of the loop over the tracks leaves behind. *)
Lemma process_track_trace labels boxes classes ld epo pci st track st' :
  process_track labels boxes classes ld epo pci st track = Some st' ->
  exists mid,
    calls st' = calls st ++ mid /\
    Forall (observed boxes classes ld epo pci [track]) mid /\
    drawn_track <$> drawn st' =
      (drawn_track <$> drawn st)
        ++ (if matched boxes track then [Some (track_id track)] else []).
Proof.
  unfold process_track, matched. intros H.
  destruct (find_best_matching_detection_index (tlbr track) boxes)
    as [best_idx|] eqn:Hbest.
  - destruct (getitem classes best_idx) as [cls|] eqn:Hcls; [|discriminate].
    simpl in H.
    assert (Hobs : ld && (negb epo || negb (pci =? -1) && (cls =? pci)) = true ->
                   forall c, c = CallUpdateTrack (track_id track) \/
                             c = CallIsLoitering (track_id track) ->
                   observed boxes classes ld epo pci [track] c).
    { intros Hrel c Hc. apply relevant_true in Hrel as [Hld Hp].
      exists track, best_idx, cls. split; [left|]. tauto. }
    destruct (manager st) as [m|].
    + destruct (ld && (negb epo || negb (pci =? -1) && (cls =? pci))) eqn:Hrel.
      * destruct (is_loitering (update_track m (track_id track))
                    (track_id track)) as [r m2].
        destruct (getitem labels cls) as [label|]; [|discriminate].
        simpl in H. inversion H; subst; clear H. simpl.
        eexists. split; [reflexivity|]. split.
        -- constructor; [apply Hobs; tauto|].
           constructor; [apply Hobs; tauto | constructor].
        -- rewrite fmap_app. reflexivity.
      * destruct (getitem labels cls) as [label|]; [|discriminate].
        simpl in H. inversion H; subst; clear H. simpl.
        exists []. split; [rewrite app_nil_r; reflexivity|].
        split; [constructor|]. rewrite fmap_app. reflexivity.
    + destruct (getitem labels cls) as [label|]; [|discriminate].
      simpl in H. inversion H; subst; clear H. simpl.
      exists []. split; [rewrite app_nil_r; reflexivity|].
      split; [constructor|]. rewrite fmap_app. reflexivity.
  - inversion H; subst. exists [].
    split; [rewrite app_nil_r; reflexivity|]. split; [constructor|].
    rewrite app_nil_r. reflexivity.
Qed.

Lemma process_tracks_trace labels boxes classes ld epo pci online_targets :
  forall st st',
    process_tracks labels boxes classes ld epo pci st online_targets
      = Some st' ->
    exists mid,
      calls st' = calls st ++ mid /\
      Forall (observed boxes classes ld epo pci online_targets) mid /\
      drawn_track <$> drawn st' =
        (drawn_track <$> drawn st)
          ++ (Some ∘ track_id <$> List.filter (matched boxes) online_targets).
Proof.
  induction online_targets as [|track rest IH]; intros st st' H; simpl in H.
  - inversion H; subst. exists [].
    split; [rewrite app_nil_r; reflexivity|]. split; [constructor|].
    simpl. rewrite app_nil_r. reflexivity.
  - destruct (process_track labels boxes classes ld epo pci st track)
      as [st1|] eqn:H1; [|discriminate].
    simpl in H.
    destruct (process_track_trace _ _ _ _ _ _ _ _ _ H1) as (mid1 & Hc1 & Ho1 & Hd1).
    destruct (IH _ _ H) as (mid2 & Hc2 & Ho2 & Hd2).
    exists (mid1 ++ mid2).
    split; [rewrite Hc2, Hc1, app_assoc; reflexivity|]. split.
    + apply Forall_app. split.
      * eapply Forall_impl; [exact Ho1|]. intros c.
        apply observed_weaken. intros t Ht.
        apply list_elem_of_singleton in Ht. subst. left.
      * eapply Forall_impl; [exact Ho2|]. intros c.
        apply observed_weaken. intros t Ht. right. exact Ht.
    + rewrite Hd2, Hd1, <- app_assoc. f_equal. simpl.
      destruct (matched boxes track); reflexivity.
Qed.

(** On a frame with a tracker, a manager and at least one filtered
    detection, every [update_track] and [is_loitering] call is made for an
    online target that the matcher tied to a detection, only when
    loitering detection is on, and in person-only mode only when that
    detection is of the person class; with loitering detection off the
    manager sees [update_frame_count] and [cleanup_missing_tracks] only. *)
Theorem tracked_frame_observes (detections : Detections)
    (labels : list string) (tracker : Tracker) (tl : option (list string))
    (ld : bool) (m : LoiteringDetectionManager) (epo : bool) (pci : Z)
    (boxes : list Box) (scores : list Q) (classes : list Z) :
  filtered_detections detections labels tl = Some (boxes, scores, classes) ->
  boxes <> [] ->
  exists st mid,
    draw_detections detections labels (Some tracker) tl ld (Some m) epo pci
      = Some st /\
    calls st = CallUpdateFrameCount :: mid
                 ++ [CallCleanup (current_track_ids st)] /\
    Forall (observed boxes classes ld epo pci (tracker (zip boxes scores)))
      mid /\
    (ld = false -> mid = []).
Proof.
  intros Hf Hne.
  destruct (filtered_detections_valid _ _ _ _ _ _ Hf) as [Hvalid Hlen].
  unfold draw_detections. rewrite Hf. simpl.
  destruct boxes as [|b bs]; [contradiction|].
  destruct scores as [|s ss]; [discriminate|].
  change (zip (b :: bs) (s :: ss)) with ((b, s) :: zip bs ss). cbv iota.
  destruct (process_tracks_spec labels (b :: bs) classes ld epo pci m
              (tracker ((b, s) :: zip bs ss)) Hvalid
              (mkFrame (Some (update_frame_count m)) [CallUpdateFrameCount] ∅ [])
              (update_frame_count m) eq_refl eq_refl)
    as (st1 & m1 & mid0 & Hrun & Hm1 & _).
  rewrite Hrun. simpl. rewrite Hm1.
  destruct (process_tracks_trace _ _ _ _ _ _ _ _ _ Hrun) as (mid & Hc & Hobs & _).
  destruct (cleanup_spec m1 (current_track_ids st1)) as (m' & -> & _).
  simpl. eexists _, mid. split; [reflexivity|]. simpl.
  split; [rewrite Hc; reflexivity|]. split; [exact Hobs|].
  intros ->. destruct mid as [|c mid]; [reflexivity|].
  inversion Hobs as [|? ? (t & i & cls & _ & _ & _ & _ & Hld & _) _].
  discriminate.
Qed.

Lemma tracked_frame_observes_witness :
  exists st mid,
    draw_detections person_frame scenario_labels (Some two_tracks) None
      true (Some following_both) true 0 = Some st /\
    calls st = CallUpdateFrameCount :: mid
                 ++ [CallCleanup (current_track_ids st)] /\
    Forall (observed [mkBox 80 160 240 320] [0] true true 0
              (two_tracks (zip [mkBox 80 160 240 320] [9 # 10]))) mid /\
    (true = false -> mid = []).
Proof.
  apply (tracked_frame_observes person_frame scenario_labels two_tracks
           None true following_both true 0
           [mkBox 80 160 240 320] [9 # 10] [0]).
  - vm_compute. reflexivity.
  - discriminate.
Defined.

(** On such a frame exactly the matched tracks are drawn, one box each, in
    the order in which the tracker reported them; a track without a
    matching detection is not drawn. *)
Theorem tracked_frame_draws_matched (detections : Detections)
    (labels : list string) (tracker : Tracker) (tl : option (list string))
    (ld : bool) (mgr : option LoiteringDetectionManager) (epo : bool)
    (pci : Z) (boxes : list Box) (scores : list Q) (classes : list Z) :
  filtered_detections detections labels tl = Some (boxes, scores, classes) ->
  boxes <> [] ->
  exists st,
    draw_detections detections labels (Some tracker) tl ld mgr epo pci
      = Some st /\
    drawn_track <$> drawn st =
      (Some ∘ track_id
         <$> List.filter (matched boxes) (tracker (zip boxes scores))).
Proof.
  intros Hf Hne.
  destruct (draw_detections_defined detections labels (Some tracker) tl ld
              mgr epo pci boxes scores classes Hf) as [st Hst].
  exists st. split; [exact Hst|].
  destruct (filtered_detections_valid _ _ _ _ _ _ Hf) as [Hvalid Hlen].
  unfold draw_detections in Hst. rewrite Hf in Hst. simpl in Hst.
  destruct boxes as [|b bs]; [contradiction|].
  destruct scores as [|s ss]; [discriminate|].
  change (zip (b :: bs) (s :: ss)) with ((b, s) :: zip bs ss) in *.
  cbv iota in Hst.
  destruct (process_tracks _ _ _ _ _ _ _ _) as [st1|] eqn:Hrun;
    [|discriminate].
  simpl in Hst.
  destruct (process_tracks_trace _ _ _ _ _ _ _ _ _ Hrun) as (mid & _ & _ & Hd).
  assert (Hd1 : drawn_track <$> drawn st1 =
                (Some ∘ track_id
                   <$> List.filter (matched (b :: bs))
                         (tracker ((b, s) :: zip bs ss)))).
  { rewrite Hd. destruct mgr; reflexivity. }
  destruct (manager st1) as [m1|].
  - destruct (cleanup_missing_tracks m1 (current_track_ids st1));
      [|discriminate].
    simpl in Hst. inversion Hst; subst. simpl. exact Hd1.
  - inversion Hst; subst. exact Hd1.
Qed.

Lemma tracked_frame_draws_matched_witness :
  exists st,
    draw_detections person_frame scenario_labels (Some two_tracks) None
      true (Some following_both) false 0 = Some st /\
    drawn_track <$> drawn st =
      (Some ∘ track_id
         <$> List.filter (matched [mkBox 80 160 240 320])
               (two_tracks (zip [mkBox 80 160 240 320] [9 # 10]))).
Proof.
  apply (tracked_frame_draws_matched person_frame scenario_labels two_tracks
           None true (Some following_both) false 0
           [mkBox 80 160 240 320] [9 # 10] [0]).
  - vm_compute. reflexivity.
  - discriminate.
Defined.

End TrackedFrameMore.

Section HandlerMore.
Import Geometry Selector Loitering Orchestrator.

Lemma person_index_from_none (labels : list string) :
  forall idx, "person"%string ∉ labels -> person_index_from labels idx = -1.
Proof.
  induction labels as [|l labels IH]; intros idx Hnot; simpl; [reflexivity|].
  destruct (String.eqb l "person") eqn:He.
  - apply String.eqb_eq in He. subst. exfalso. apply Hnot. left.
  - apply IH. intros Hin. apply Hnot. right. exact Hin.
Qed.

Lemma person_index_from_first (labels : list string) :
  forall idx (i : nat),
    labels !! i = Some "person"%string ->
    (forall j, (j < i)%nat -> labels !! j <> Some "person"%string) ->
    person_index_from labels idx = idx + Z.of_nat i.
Proof.
  induction labels as [|l labels IH]; intros idx i Hi Hfirst.
  - rewrite lookup_nil in Hi. discriminate.
  - simpl. destruct i as [|i]; simpl in Hi.
    + inversion Hi; subst. simpl. lia.
    + destruct (String.eqb l "person") eqn:He.
      * apply String.eqb_eq in He. subst.
        exfalso. apply (Hfirst 0%nat); [lia | reflexivity].
      * rewrite (IH (idx + 1) i Hi); [lia|].
        intros j Hj. apply (Hfirst (S j)). lia.
Qed.

(** The person class index that [inference_result_handler] computes is the
    position of the first label ["person"], and [-1] exactly when no label
    is ["person"]. *)
Theorem person_index_spec (labels : list string) :
  ("person"%string ∉ labels <-> person_index_from labels 0 = -1) /\
  (forall i : nat,
     labels !! i = Some "person"%string ->
     (forall j, (j < i)%nat -> labels !! j <> Some "person"%string) ->
     person_index_from labels 0 = Z.of_nat i).
Proof.
  split.
  - split; [apply person_index_from_none|].
    intros Hm Hin.
    assert (Hex : exists i, labels !! i = Some "person"%string /\
              forall j, (j < i)%nat -> labels !! j <> Some "person"%string).
    { clear Hm. induction labels as [|l labels IH]; [inversion Hin|].
      destruct (decide (l = "person"%string)) as [->|Hne].
      - exists 0%nat. split; [reflexivity|]. intros j Hj. lia.
      - apply elem_of_cons in Hin as [Heq|Hin]; [congruence|].
        destruct (IH Hin) as (i & Hi & Hfirst). exists (S i).
        split; [exact Hi|]. intros [|j] Hj; simpl.
        + congruence.
        + apply Hfirst. lia. }
    destruct Hex as (i & Hi & Hfirst).
    rewrite (person_index_from_first labels 0 i Hi Hfirst) in Hm. lia.
  - intros i Hi Hfirst.
    rewrite (person_index_from_first labels 0 i Hi Hfirst). lia.
Qed.

Lemma person_index_spec_witness :
  person_index_from ["car"; "person"; "dog"; "person"]%string 0 = Z.of_nat 1.
Proof.
  apply (proj2 (person_index_spec ["car"; "person"; "dog"; "person"]%string)).
  - reflexivity.
  - intros [|j] Hj; [discriminate | lia].
Defined.

(** The loop over the tracks neither creates nor loses the manager, and
    without a manager it logs no call. *)
Lemma process_track_manager labels boxes classes ld epo pci s track s' :
  process_track labels boxes classes ld epo pci s track = Some s' ->
  (manager s = None -> manager s' = None /\ calls s' = calls s) /\
  (is_Some (manager s) -> is_Some (manager s')).
Proof.
  unfold process_track. intros H.
  destruct (find_best_matching_detection_index (tlbr track) boxes)
    as [best_idx|]; [|inversion H; subst; tauto].
  destruct (getitem classes best_idx) as [cls|]; [|discriminate].
  simpl in H. destruct (manager s) as [m|].
  - destruct (ld && (negb epo || negb (pci =? -1) && (cls =? pci))).
    + destruct (is_loitering (update_track m (track_id track))
                  (track_id track)) as [r m2].
      destruct (getitem labels cls); [|discriminate].
      simpl in H. inversion H; subst. simpl.
      split; [discriminate | eauto].
    + destruct (getitem labels cls); [|discriminate].
      simpl in H. inversion H; subst. simpl.
      split; [discriminate | eauto].
  - destruct (getitem labels cls); [|discriminate].
    simpl in H. inversion H; subst. simpl.
    split; [tauto|]. intros [? ?]. discriminate.
Qed.

Lemma process_tracks_manager labels boxes classes ld epo pci ts :
  forall s s',
    process_tracks labels boxes classes ld epo pci s ts = Some s' ->
    (manager s = None -> manager s' = None /\ calls s' = calls s) /\
    (is_Some (manager s) -> is_Some (manager s')).
Proof.
  induction ts as [|t ts IH]; intros s s' H; simpl in H.
  - inversion H; subst. tauto.
  - destruct (process_track labels boxes classes ld epo pci s t)
      as [s1|] eqn:H1; [|discriminate].
    simpl in H.
    destruct (process_track_manager _ _ _ _ _ _ _ _ _ H1) as [Hn1 Hs1].
    destruct (IH _ _ H) as [Hn2 Hs2]. split.
    + intros Hs. destruct (Hn1 Hs) as [Hm1 Hc1].
      destruct (Hn2 Hm1) as [Hm2 Hc2]. split; congruence.
    + intros Hs. apply Hs2, Hs1, Hs.
Qed.

(** The shape of the calls made on the manager by any frame: none at all,
    or one [update_frame_count], calls for observed tracks, and one
    [cleanup_missing_tracks]. *)
Lemma draw_detections_calls detections labels tracker tl ld mgr epo pci
    boxes scores classes st :
  filtered_detections detections labels tl = Some (boxes, scores, classes) ->
  draw_detections detections labels tracker tl ld mgr epo pci = Some st ->
  calls st = [] \/
  exists mid online_targets,
    calls st = CallUpdateFrameCount :: mid
                 ++ [CallCleanup (current_track_ids st)] /\
    Forall (observed boxes classes ld epo pci online_targets) mid.
Proof.
  intros Hf Hst. unfold draw_detections in Hst. rewrite Hf in Hst.
  simpl in Hst. destruct tracker as [tracker|].
  - destruct (zip boxes scores) as [|row rows] eqn:Hz.
    + inversion Hst; subst. left. reflexivity.
    + destruct (process_tracks _ _ _ _ _ _ _ _) as [st1|] eqn:Hrun;
        [|discriminate].
      simpl in Hst.
      destruct (process_tracks_trace _ _ _ _ _ _ _ _ _ Hrun)
        as (mid & Hc & Hobs & _).
      destruct (process_tracks_manager _ _ _ _ _ _ _ _ _ Hrun) as [Hnone Hsome].
      destruct mgr as [m|].
      * destruct Hsome as [m1 Hm1]; [simpl; eauto|]. rewrite Hm1 in Hst.
        destruct (cleanup_missing_tracks m1 (current_track_ids st1));
          [|discriminate].
        simpl in Hst. inversion Hst; subst. simpl. right.
        exists mid, (tracker (row :: rows)). rewrite Hc.
        split; [reflexivity | exact Hobs].
      * destruct (Hnone eq_refl) as [Hm1 Hc1]. rewrite Hm1 in Hst.
        inversion Hst; subst. left. exact Hc1.
  - destruct (draw_raw _ _ _ _ _) as [ds|]; [|discriminate].
    simpl in Hst. inversion Hst; subst. left. reflexivity.
Qed.

(** Unpacking the rows first and selecting afterwards is the function on
    unvalidated arguments. *)
Lemma collect_class_raw_unpack thr size pad h w class_id detection :
  collect_class_raw thr size pad h w class_id detection
  = (rows ← unpack_rows detection;
     Some (collect_class thr size pad h w class_id rows)).
Proof.
  induction detection as [|det rest IH]; simpl; [reflexivity|].
  destruct (unpack_row det) as [d|]; simpl; [|reflexivity].
  rewrite IH. destruct (unpack_rows rest) as [ds|]; simpl; [|reflexivity].
  destruct (Qle_bool thr (det_score d)); reflexivity.
Qed.

Lemma collect_raw_unpack indices thr size pad h w detections :
  forall class_id,
    collect_raw indices thr size pad h w class_id detections
    = (rows ← unpack_classes indices class_id detections;
       Some (collect indices thr size pad h w class_id rows)).
Proof.
  induction detections as [|detection rest IH]; intros class_id; simpl;
    [reflexivity|].
  rewrite IH. destruct (bool_decide (class_id ∈ indices)) eqn:Hb.
  - rewrite collect_class_raw_unpack.
    destruct (unpack_rows detection) as [rows|]; simpl; [|reflexivity].
    destruct (unpack_classes indices (class_id + 1) rest) as [more|]; simpl;
      [|reflexivity].
    rewrite Hb. reflexivity.
  - simpl.
    destruct (unpack_classes indices (class_id + 1) rest) as [more|]; simpl;
      [|reflexivity].
    rewrite Hb. reflexivity.
Qed.

Lemma extract_detections_raw_unpack h w detections config_data labels tl :
  extract_detections_raw h w detections config_data labels tl
  = (params ← visualization_params config_data;
     rows ← unpack_classes (target_class_indices labels tl) 0 detections;
     Some (extract_detections h w rows params labels tl)).
Proof.
  unfold extract_detections_raw.
  destruct (visualization_params config_data) as [params|]; simpl;
    [|reflexivity].
  rewrite collect_raw_unpack.
  destruct (unpack_classes _ 0 detections) as [rows|]; reflexivity.
Qed.






(** On arguments that unpack, the entry point on unvalidated arguments is
    the entry point above on the unpacked ones. *)
Lemma inference_result_handler_raw_unpack h w infer_results labels
    config_data tracker tl ld mgr epo :
  inference_result_handler_raw h w infer_results labels config_data tracker
    tl ld mgr epo
  = (params ← visualization_params config_data;
     rows ← unpack_classes
              (target_class_indices labels
                 (Some (default default_target_labels tl)))
              0 infer_results;
     inference_result_handler h w rows labels params tracker tl ld mgr epo).
Proof.
  unfold inference_result_handler_raw, inference_result_handler.
  rewrite extract_detections_raw_unpack.
  destruct (visualization_params config_data) as [params|]; simpl;
    [|reflexivity].
  destruct (unpack_classes _ 0 infer_results) as [rows|]; reflexivity.
Qed.

(** A configuration without ["visualization_params"] and, with the key
    present, a row of four numbers in the person class: both raise; the
    same short row in the dog class, which is not a target, does not. *)
Example inference_result_handler_raises :
  inference_result_handler_raw 480 640 [] scenario_labels (mkConfig None)
    None None false None false = None /\
  inference_result_handler_raw 480 640 [[short_row]] scenario_labels
    (mkConfig (Some scenario_config)) None None false None false = None /\
  is_Some (inference_result_handler_raw 480 640
             [[full_row]; []; [short_row]] scenario_labels
             (mkConfig (Some scenario_config)) None None false None false).
Proof.
  split; [reflexivity|]. split; [reflexivity|]. vm_compute. eauto.
Qed.

(** In person-only mode with no ["person"] label, loitering detection is
    switched off for the frame: the handler makes no [update_track] or
    [is_loitering] call, so the manager records no track. *)
Theorem person_only_without_person (h w : Z)
    (infer_results : list (list RawDetection)) (labels : list string)
    (config : VisualizationParams) (tracker : option Tracker)
    (tl : option (list string)) (ld : bool)
    (mgr : option LoiteringDetectionManager) :
  "person"%string ∉ labels ->
  exists st,
    inference_result_handler h w infer_results labels config tracker tl ld
      mgr true = Some st /\
    (calls st = [] \/
     calls st = [CallUpdateFrameCount; CallCleanup (current_track_ids st)]).
Proof.
  intros Hnot. unfold inference_result_handler. simpl.
  rewrite (person_index_from_none labels 0 Hnot). simpl.
  set (tls := Some (default default_target_labels tl)).
  set (d := extract_detections h w infer_results config labels tls).
  assert (Hf : filtered_detections d labels tls
               = Some (detection_boxes d, detection_scores d,
                       detection_classes d)).
  { unfold filtered_detections, d, extract_detections. simpl.
    apply filter_targets_of_candidates, top_detections_targets. }
  destruct (draw_detections_defined d labels tracker tls false mgr true (-1)
              _ _ _ Hf) as [st Hst].
  exists st. split; [exact Hst|].
  destruct (draw_detections_calls _ _ _ _ _ _ _ _ _ _ _ _ Hf Hst)
    as [Hnil|(mid & ts & Hc & Hobs)]; [left; exact Hnil|].
  right. destruct mid as [|c mid]; [exact Hc|].
  inversion Hobs as [|? ? (t & i & cls & _ & _ & _ & _ & Hld & _) _].
  discriminate.
Qed.

Lemma person_only_without_person_witness :
  exists st,
    inference_result_handler 480 640 [[mkRaw scenario_box (9 # 10)]]
      ["car"; "dog"]%string scenario_config (Some two_tracks) None true
      (Some following_both) true = Some st /\
    (calls st = [] \/
     calls st = [CallUpdateFrameCount; CallCleanup (current_track_ids st)]).
Proof.
  apply (person_only_without_person 480 640 [[mkRaw scenario_box (9 # 10)]]
           ["car"; "dog"]%string scenario_config (Some two_tracks) None true
           (Some following_both)).
  intros Hin. repeat (apply elem_of_cons in Hin as [Hin|Hin];
                      [discriminate|]).
  inversion Hin.
Defined.

End HandlerMore.

Section RedBoxes.
Import Geometry Selector Loitering Orchestrator.

Lemma is_loitering_true_recorded m id :
  fst (is_loitering m id) = true ->
  exists s, track_start_frames m !! id = Some s.
Proof.
  intros H. destruct (track_start_frames m !! id) as [s|] eqn:Hk; [eauto|].
  rewrite (is_loitering_unknown _ _ Hk) in H. discriminate.
Qed.

(** Observing a track does not change the answer for another one. *)
Lemma is_loitering_after_update_track m t id :
  fst (is_loitering m id) = true ->
  fst (is_loitering (update_track m t) id) = true.
Proof.
  intros H. destruct (is_loitering_true_recorded _ _ H) as [s Hs].
  destruct (track_start_frames m !! t) as [st|] eqn:Ht.
  - rewrite (update_track_known _ _ _ Ht). exact H.
  - rewrite (is_loitering_known _ _ _ Hs) in H.
    rewrite (update_track_unknown _ _ Ht).
    erewrite is_loitering_known.
    + exact H.
    + simpl. rewrite lookup_insert_ne; [exact Hs | congruence].
Qed.

(** A cleanup does not change the answer for a track it keeps. *)
Lemma is_loitering_after_cleanup m ids m' id :
  cleanup_missing_tracks m ids = Some m' ->
  id ∈ ids ->
  fst (is_loitering m' id) = fst (is_loitering m id).
Proof.
  intros Hc Hin.
  destruct (cleanup_spec m ids) as (m1 & H1 & Hl & Hcf & Hft & _).
  rewrite H1 in Hc. inversion Hc; subst m1. clear Hc.
  specialize (Hl id). rewrite decide_True in Hl by exact Hin.
  destruct (track_start_frames m !! id) as [s|] eqn:Hs.
  - rewrite (is_loitering_known _ _ _ Hs), (is_loitering_known _ _ _ Hl).
    simpl. rewrite Hcf, Hft. reflexivity.
  - rewrite (is_loitering_unknown _ _ Hs), (is_loitering_unknown _ _ Hl).
    reflexivity.
Qed.

Lemma process_track_red labels boxes classes ld epo pci st track st' :
  process_track labels boxes classes ld epo pci st track = Some st' ->
  red_is_loitering st -> red_is_loitering st'.
Proof.
  unfold process_track. intros H Hinv.
  destruct (find_best_matching_detection_index (tlbr track) boxes)
    as [best_idx|]; [|inversion H; subst; exact Hinv].
  destruct (getitem classes best_idx) as [cls|]; [|discriminate].
  simpl in H.
  assert (Hold : forall m' : option LoiteringDetectionManager,
            (forall m id, manager st = Some m ->
               fst (is_loitering m id) = true ->
               exists m2, m' = Some m2 /\ fst (is_loitering m2 id) = true) ->
            forall d, d ∈ drawn st -> drawn_red d = true ->
              exists id m2,
                drawn_track d = Some id /\ m' = Some m2 /\
                id ∈ {[ track_id track ]} ∪ current_track_ids st /\
                fst (is_loitering m2 id) = true).
  { intros m' Hm' d Hd Hred.
    destruct (Hinv d Hd Hred) as (id & m & Hid & Hm & Hin & Hl).
    destruct (Hm' m id Hm Hl) as (m2 & -> & Hl2).
    exists id, m2. split; [exact Hid|]. split; [reflexivity|].
    split; [apply elem_of_union; right; exact Hin | exact Hl2]. }
  destruct (manager st) as [m|] eqn:Hm.
  - destruct (ld && (negb epo || negb (pci =? -1) && (cls =? pci))).
    + destruct (is_loitering (update_track m (track_id track))
                  (track_id track)) as [r m2] eqn:Hil.
      destruct (getitem labels cls) as [label|]; [|discriminate].
      simpl in H. inversion H; subst st'; clear H.
      assert (Hm2 : m2 = update_track m (track_id track)).
      { destruct (track_start_frames (update_track m (track_id track))
                    !! track_id track) as [s|] eqn:Hk.
        - rewrite (is_loitering_known _ _ _ Hk) in Hil.
          inversion Hil. reflexivity.
        - rewrite (is_loitering_unknown _ _ Hk) in Hil.
          inversion Hil. reflexivity. }
      intros d Hd Hred. simpl in *. apply elem_of_app in Hd as [Hd|Hd].
      * apply (Hold (Some m2)); [|exact Hd|exact Hred].
        intros m0 id Hm0 Hl. inversion Hm0; subst m0.
        exists m2. split; [reflexivity|]. rewrite Hm2.
        apply is_loitering_after_update_track. exact Hl.
      * apply list_elem_of_singleton in Hd. subst d. simpl in Hred.
        exists (track_id track), m2. split; [reflexivity|].
        split; [reflexivity|].
        split; [apply elem_of_union; left; apply elem_of_singleton;
                reflexivity|].
        rewrite Hm2 at 1. rewrite Hil. exact Hred.
    + destruct (getitem labels cls) as [label|]; [|discriminate].
      simpl in H. inversion H; subst st'; clear H.
      intros d Hd Hred. simpl in *. apply elem_of_app in Hd as [Hd|Hd].
      * apply (Hold (Some m)); [|exact Hd|exact Hred].
        intros m0 id Hm0 Hl. inversion Hm0; subst m0. eauto.
      * apply list_elem_of_singleton in Hd. subst d. discriminate.
  - destruct (getitem labels cls) as [label|]; [|discriminate].
    simpl in H. inversion H; subst st'; clear H.
    intros d Hd Hred. simpl in *. apply elem_of_app in Hd as [Hd|Hd].
    + destruct (Hinv d Hd Hred) as (id & m & _ & Hm0 & _). congruence.
    + apply list_elem_of_singleton in Hd. subst d. discriminate.
Qed.

Lemma process_tracks_red labels boxes classes ld epo pci ts :
  forall st st',
    process_tracks labels boxes classes ld epo pci st ts = Some st' ->
    red_is_loitering st -> red_is_loitering st'.
Proof.
  induction ts as [|t ts IH]; intros st st' H Hinv; simpl in H.
  - inversion H; subst. exact Hinv.
  - destruct (process_track labels boxes classes ld epo pci st t)
      as [s1|] eqn:H1; [|discriminate].
    simpl in H. apply (IH _ _ H).
    exact (process_track_red _ _ _ _ _ _ _ _ _ H1 Hinv).
Qed.

(** A box is drawn in red only for a track that the manager handed back
    by the frame reports as loitering; without a tracker or without a
    manager nothing is drawn in red. *)
Theorem red_means_loitering (detections : Detections)
    (labels : list string) (tracker : option Tracker)
    (tl : option (list string)) (ld : bool)
    (mgr : option LoiteringDetectionManager) (epo : bool) (pci : Z)
    (boxes : list Box) (scores : list Q) (classes : list Z) :
  filtered_detections detections labels tl = Some (boxes, scores, classes) ->
  exists st,
    draw_detections detections labels tracker tl ld mgr epo pci = Some st /\
    forall d, d ∈ drawn st -> drawn_red d = true ->
      exists id m,
        drawn_track d = Some id /\ manager st = Some m /\
        fst (is_loitering m id) = true.
Proof.
  intros Hf.
  destruct (draw_detections_defined detections labels tracker tl ld mgr epo
              pci boxes scores classes Hf) as [st Hst].
  exists st. split; [exact Hst|].
  assert (Hinv : red_is_loitering st).
  { unfold draw_detections in Hst. rewrite Hf in Hst. simpl in Hst.
    destruct tracker as [tracker|].
    - destruct (zip boxes scores) as [|row rows].
      + inversion Hst; subst. intros d Hd. inversion Hd.
      + destruct (process_tracks _ _ _ _ _ _ _ _) as [st1|] eqn:Hrun;
          [|discriminate].
        simpl in Hst.
        assert (Hinv1 : red_is_loitering st1).
        { apply (process_tracks_red _ _ _ _ _ _ _ _ _ Hrun).
          destruct mgr; intros d Hd; inversion Hd. }
        destruct (manager st1) as [m1|] eqn:Hm1.
        * destruct (cleanup_missing_tracks m1 (current_track_ids st1))
            as [m'|] eqn:Hc; [|discriminate].
          simpl in Hst. inversion Hst; subst st. clear Hst.
          intros d Hd Hred. simpl in *.
          destruct (Hinv1 d Hd Hred) as (id & m & Hid & Hm & Hin & Hl).
          rewrite Hm1 in Hm. inversion Hm; subst m.
          exists id, m'. split; [exact Hid|]. split; [reflexivity|].
          split; [exact Hin|].
          rewrite (is_loitering_after_cleanup _ _ _ _ Hc Hin). exact Hl.
        * inversion Hst; subst st. exact Hinv1.
    - destruct (draw_raw_total labels boxes scores classes) with
        (idxs := Orchestrator.range (Z.of_nat (length boxes)))
        as (ds & Hds & _ & Hplain).
      + apply (filtered_detections_valid _ _ _ _ _ _ Hf).
      + apply (filtered_detections_valid _ _ _ _ _ _ Hf).
      + apply range_in_bounds.
      + rewrite Hds in Hst. simpl in Hst. inversion Hst; subst st.
        intros d Hd Hred. simpl in Hd. rewrite Forall_forall in Hplain.
        destruct (Hplain d Hd) as [Hnr _]. congruence. }
  intros d Hd Hred.
  destruct (Hinv d Hd Hred) as (id & m & Hid & Hm & _ & Hl). eauto.
Qed.

Lemma red_means_loitering_witness :
  exists st,
    draw_detections person_frame scenario_labels (Some two_tracks) None
      true (Some following_both) false 0 = Some st /\
    forall d, d ∈ drawn st -> drawn_red d = true ->
      exists id m,
        drawn_track d = Some id /\ manager st = Some m /\
        fst (is_loitering m id) = true.
Proof.
  apply (red_means_loitering person_frame scenario_labels (Some two_tracks)
           None true (Some following_both) false 0
           [mkBox 80 160 240 320] [9 # 10] [0]).
  vm_compute. reflexivity.
Defined.

End RedBoxes.

Section FrameRecords.
Import Geometry Selector Loitering Orchestrator.

(** What a run of [update_track] / [is_loitering] calls does to the
    records: the frame counter stands still, a recorded id keeps its start
    frame, and an unrecorded id is recorded, at the current frame, exactly
    when [update_track] is called for it. *)
Lemma run_track_calls mid :
  Forall is_track_call mid ->
  forall m m1, run mid m = Some m1 ->
    current_frame m1 = current_frame m /\
    forall k,
      (forall s, track_start_frames m !! k = Some s ->
                 track_start_frames m1 !! k = Some s) /\
      (track_start_frames m !! k = None ->
       CallUpdateTrack k ∈ mid ->
       track_start_frames m1 !! k = Some (current_frame m)) /\
      (track_start_frames m !! k = None ->
       CallUpdateTrack k ∉ mid ->
       track_start_frames m1 !! k = None).
Proof.
  induction 1 as [|c mid Hc _ IH]; intros m m1 Hrun; simpl in Hrun.
  - inversion Hrun; subst. split; [reflexivity|]. intros k.
    split; [tauto|]. split; [|tauto]. intros _ Hin. inversion Hin.
  - destruct c as [|id|id|ids]; simpl in Hc; try contradiction;
      simpl in Hrun.
    + destruct (IH _ _ Hrun) as [Hcf Hk].
      destruct (track_start_frames m !! id) as [sid|] eqn:Hid.
      * rewrite (update_track_known _ _ _ Hid) in *.
        split; [exact Hcf|]. intros k. destruct (Hk k) as (H1 & H2 & H3).
        split; [exact H1|]. split.
        -- intros Hn Hin. apply elem_of_cons in Hin as [Heq|Hin].
           ++ inversion Heq; subst. congruence.
           ++ apply H2; assumption.
        -- intros Hn Hnot. apply H3; [exact Hn|].
           intros Hin. apply Hnot. right. exact Hin.
      * rewrite (update_track_unknown _ _ Hid) in *. simpl in *.
        split; [exact Hcf|]. intros k. destruct (Hk k) as (H1 & H2 & H3).
        destruct (decide (id = k)) as [->|Hne].
        -- rewrite lookup_insert_eq in *.
           split; [intros s Hs; congruence|]. split.
           ++ intros _ _. apply H1. reflexivity.
           ++ intros _ Hnot. exfalso. apply Hnot. left.
        -- rewrite lookup_insert_ne in * by exact Hne.
           split; [exact H1|]. split.
           ++ intros Hn Hin. apply elem_of_cons in Hin as [Heq|Hin].
              ** inversion Heq; subst. congruence.
              ** apply H2; assumption.
           ++ intros Hn Hnot. apply H3; [exact Hn|].
              intros Hin. apply Hnot. right. exact Hin.
    + assert (Hpure : snd (is_loitering m id) = m).
      { destruct (track_start_frames m !! id) as [s0|] eqn:Hid.
        - rewrite (is_loitering_known _ _ _ Hid). reflexivity.
        - rewrite (is_loitering_unknown _ _ Hid). reflexivity. }
      rewrite Hpure in Hrun. destruct (IH _ _ Hrun) as [Hcf Hk].
      split; [exact Hcf|]. intros k. destruct (Hk k) as (H1 & H2 & H3).
      split; [exact H1|]. split.
      * intros Hn Hin. apply elem_of_cons in Hin as [Heq|Hin];
          [discriminate | apply H2; assumption].
      * intros Hn Hnot. apply H3; [exact Hn|].
        intros Hin. apply Hnot. right. exact Hin.
Qed.

(** The records of the manager after a frame with a tracker and at least
    one filtered detection: the frame counter has advanced by one; an id is
    recorded only if it is the id of a matched track; a matched id that was
    recorded keeps its start frame; a matched id that was not recorded is
    recorded, at the new frame, exactly when [update_track] was called for
    it. *)
Theorem frame_records (detections : Detections)
    (labels : list string) (tracker : Tracker) (tl : option (list string))
    (ld : bool) (m : LoiteringDetectionManager) (epo : bool) (pci : Z)
    (boxes : list Box) (scores : list Q) (classes : list Z) :
  filtered_detections detections labels tl = Some (boxes, scores, classes) ->
  boxes <> [] ->
  exists st m',
    draw_detections detections labels (Some tracker) tl ld (Some m) epo pci
      = Some st /\
    manager st = Some m' /\
    current_frame m' = current_frame m + 1 /\
    forall k,
      (k ∉ matched_ids boxes (tracker (zip boxes scores)) ->
       track_start_frames m' !! k = None) /\
      (k ∈ matched_ids boxes (tracker (zip boxes scores)) ->
       (forall s, track_start_frames m !! k = Some s ->
                  track_start_frames m' !! k = Some s) /\
       (track_start_frames m !! k = None ->
        CallUpdateTrack k ∈ calls st ->
        track_start_frames m' !! k = Some (current_frame m + 1)) /\
       (track_start_frames m !! k = None ->
        CallUpdateTrack k ∉ calls st ->
        track_start_frames m' !! k = None)).
Proof.
  intros Hf Hne.
  destruct (filtered_detections_valid _ _ _ _ _ _ Hf) as [Hvalid Hlen].
  unfold draw_detections. rewrite Hf. simpl.
  destruct boxes as [|b bs]; [contradiction|].
  destruct scores as [|s ss]; [discriminate|].
  change (zip (b :: bs) (s :: ss)) with ((b, s) :: zip bs ss). cbv iota.
  destruct (process_tracks_spec labels (b :: bs) classes ld epo pci m
              (tracker ((b, s) :: zip bs ss)) Hvalid
              (mkFrame (Some (update_frame_count m)) [CallUpdateFrameCount] ∅ [])
              (update_frame_count m) eq_refl eq_refl)
    as (st1 & m1 & mid & -> & Hm1 & Hc1 & Hmid & Hr1 & Hids).
  simpl. rewrite Hm1.
  destruct (cleanup_spec m1 (current_track_ids st1))
    as (m' & Hm' & Hl & Hcf & _).
  rewrite Hm'. simpl. eexists _, m'. split; [reflexivity|]. simpl.
  split; [reflexivity|].
  simpl in Hids. rewrite (right_id_L ∅ (∪)) in Hids.
  simpl in Hc1. rewrite Hc1 in Hr1. simpl in Hr1.
  destruct (run_track_calls mid Hmid _ _ Hr1) as [Hcf1 Hk].
  simpl in Hcf1. split; [lia|].
  assert (Hcalls : forall k, CallUpdateTrack k ∈ calls st1 ++
                     [CallCleanup (current_track_ids st1)]
                   <-> CallUpdateTrack k ∈ mid).
  { intros k. rewrite Hc1. simpl.
    rewrite elem_of_cons, elem_of_app, list_elem_of_singleton.
    split; [|tauto]. intros [Heq|[Hin|Heq]];
      [discriminate | exact Hin | discriminate]. }
  rewrite Hids in Hcalls.
  intros k. rewrite Hl, Hids. destruct (Hk k) as (H1 & H2 & H3).
  simpl in H1, H2, H3. split.
  - intros Hnot. rewrite decide_False by exact Hnot. reflexivity.
  - intros Hin. rewrite decide_True by exact Hin.
    split; [exact H1|]. split.
    + intros Hn Hc. apply H2; [exact Hn | apply Hcalls; exact Hc].
    + intros Hn Hc. apply H3; [exact Hn|].
      intros Hin'. apply Hc, Hcalls. exact Hin'.
Qed.

Lemma frame_records_witness :
  exists st m',
    draw_detections person_frame scenario_labels (Some two_tracks) None
      true (Some following_both) false 0 = Some st /\
    manager st = Some m' /\
    current_frame m' = current_frame following_both + 1 /\
    track_start_frames m' !! 2 = None /\
    track_start_frames m' !! 1 = Some 5.
Proof.
  destruct (frame_records person_frame scenario_labels two_tracks None true
              following_both false 0 [mkBox 80 160 240 320] [9 # 10] [0])
    as (st & m' & Hst & Hm & Hcf & Hk).
  - vm_compute. reflexivity.
  - discriminate.
  - exists st, m'. split; [exact Hst|]. split; [exact Hm|].
    split; [exact Hcf|]. split.
    + apply (proj1 (Hk 2)). vm_compute. intros H. discriminate H.
    + apply (proj2 (Hk 1)); [|reflexivity].
      vm_compute. reflexivity.
Defined.

End FrameRecords.
